(** * VoxNavigator 3D: a shallow embedding of the ingestion, styling,
    picking and capture code of the 3d-plot repository.

    Sources embedded here:
    - [src/types.ts]                      (PointShape, CategoryStyle, DataPoint)
    - [src/unnamed/part_000]              (the FileUpload component: processCSV)
    - [src/App.tsx]                       (handleDataLoaded)
    - [src/components/DataVisualizer.tsx] (createShapeTexture, CategoryPoints,
                                           handleHover, handleCapture,
                                           takeScreenshot, pointsByCategory,
                                           the overlay conditions)

    JavaScript values are modelled as the program uses them: strings are
    sequences of UTF-16 code units, numbers are binary64 floats, plain
    objects used as maps are ordinary objects (own properties in creation
    order, enumerated array-index keys first, with [Object.prototype] behind
    them), and the browser's timers are an explicit queue with a clock. *)

From Stdlib Require Import List NArith Bool Arith Lia Ascii String QArith.
From Stdlib Require Import Permutation.
From Stdlib Require Import Floats.PrimFloat.
Import ListNotations.
Close Scope Q_scope.

(* ================================================================== *)
(** * JavaScript strings *)
(* ================================================================== *)

(** A string is its sequence of UTF-16 code units. *)
Definition jsstr : Type := list N.

(** A literal of the source, written with its ASCII characters. *)
Definition lit (s : string) : jsstr := map N_of_ascii (list_ascii_of_string s).

Definition jsstr_eq_dec : forall a b : jsstr, {a = b} + {a <> b} :=
  list_eq_dec N.eq_dec.

Definition str_eqb (a b : jsstr) : bool :=
  if jsstr_eq_dec a b then true else false.

Definition mem_str (k : jsstr) (l : list jsstr) : bool := existsb (str_eqb k) l.

(** [WhiteSpace] and [LineTerminator] code points of ECMAScript, the ones
    [String.prototype.trim] strips. *)
Definition is_white_space (c : N) : bool :=
  ((9 <=? c) && (c <=? 13) || (c =? 32) || (c =? 160) || (c =? 5760)
   || (8192 <=? c) && (c <=? 8202) || (c =? 8232) || (c =? 8233)
   || (c =? 8239) || (c =? 8287) || (c =? 12288) || (c =? 65279))%N.

Fixpoint trimStart (s : jsstr) : jsstr :=
  match s with
  | c :: rest => if is_white_space c then trimStart rest else s
  | [] => []
  end.

Definition trimEnd (s : jsstr) : jsstr := rev (trimStart (rev s)).

(** [s.trim()] *)
Definition trim (s : jsstr) : jsstr := trimEnd (trimStart s).

(** [s.split(sep)] for a one-character separator: never empty, the empty
    string splits into one empty piece. *)
Fixpoint split (sep : N) (s : jsstr) : list jsstr :=
  match s with
  | [] => [[]]
  | c :: rest =>
      if (c =? sep)%N then [] :: split sep rest
      else match split sep rest with
           | cur :: more => (c :: cur) :: more
           | [] => [[c]]
           end
  end.

Definition newline : N := 10.
Definition comma : N := 44.

(** Truthiness of a string: the empty string is falsy. *)
Definition truthy_str (s : jsstr) : bool :=
  match s with [] => false | _ => true end.

(** [a || d] where [a] is an array element that may be [undefined]. *)
Definition or_default (a : option jsstr) (d : jsstr) : jsstr :=
  match a with
  | Some s => if truthy_str s then s else d
  | None => d
  end.

(* ================================================================== *)
(** * JavaScript numbers *)
(* ================================================================== *)

(** [v || 0] on a number: [NaN], [+0] and [-0] are falsy. *)
Definition or_zero (v : float) : float :=
  if (PrimFloat.is_nan v || PrimFloat.eqb v PrimFloat.zero)%bool
  then PrimFloat.zero else v.

(** [ToString(undefined)], what [parseFloat] sees for a missing column. *)
Definition undefined_text : jsstr := lit "undefined".

(* ================================================================== *)
(** * Ordinary objects used as maps *)
(* ================================================================== *)

Module JsObject.

(** The property names every ordinary object inherits from
    [Object.prototype] (ECMAScript, with the Annex B accessors that
    browsers ship).  All of them hold a function, except [__proto__],
    an accessor that yields the prototype object: every one is truthy. *)
Definition ObjectPrototype : list jsstr :=
  map lit [ "constructor"; "__defineGetter__"; "__defineSetter__";
            "hasOwnProperty"; "__lookupGetter__"; "__lookupSetter__";
            "isPrototypeOf"; "propertyIsEnumerable"; "toString";
            "valueOf"; "__proto__"; "toLocaleString" ]%string.

Definition proto_key : jsstr := lit "__proto__".

(** The outcome of reading [o[k]]. *)
Inductive lookup (V : Type) : Type :=
| Undefined                 (* no such property on the chain *)
| Val (v : V)               (* a value stored by the program *)
| Inherited (k : jsstr).    (* what the prototype chain holds under [k] *)
Arguments Undefined {V}.
Arguments Val {V} v.
Arguments Inherited {V} k.

(** An ordinary object whose prototype is [Object.prototype]: its own
    properties, in creation order. *)
Definition obj (V : Type) : Type := list (jsstr * V).

Definition empty {V} : obj V := [].

Fixpoint own {V} (o : obj V) (k : jsstr) : option V :=
  match o with
  | [] => None
  | (k', v) :: rest => if str_eqb k k' then Some v else own rest k
  end.

(** [o[k]] *)
Definition get {V} (o : obj V) (k : jsstr) : lookup V :=
  match own o k with
  | Some v => Val v
  | None => if mem_str k ObjectPrototype then Inherited k else Undefined
  end.

(** Storing under a key that does not reach the [__proto__] accessor:
    replaces the value of an own property in place, or creates the
    property after the existing ones. *)
Fixpoint put {V} (o : obj V) (k : jsstr) (v : V) : obj V :=
  match o with
  | [] => [(k, v)]
  | (k', v') :: rest =>
      if str_eqb k k' then (k', v) :: rest else (k', v') :: put rest k v
  end.

(** Truthiness of a lookup, given the truthiness of stored values. *)
Definition truthy {V} (tv : V -> bool) (r : lookup V) : bool :=
  match r with
  | Undefined => false
  | Val v => tv v
  | Inherited _ => true
  end.

(** ** Property order

    [OrdinaryOwnPropertyKeys]: the keys that are array indices come
    first, in ascending numeric order; the other string keys follow in
    creation order. *)

Definition is_digit (c : N) : bool := ((48 <=? c) && (c <=? 57))%N.

Definition decimal_value (s : jsstr) : N :=
  fold_left (fun acc c => (10 * acc + (c - 48))%N) s 0%N.

(** [Some n] when [k] is the canonical decimal form of an array index
    [n <= 2^32 - 2]. *)
Definition array_index (k : jsstr) : option N :=
  match k with
  | [] => None
  | c :: rest =>
      if forallb is_digit k
         && (negb (c =? 48)%N || match rest with [] => true | _ => false end)
         && (List.length k <=? 10)%nat
         && (decimal_value k <? 4294967295)%N
      then Some (decimal_value k) else None
  end.

Fixpoint insert_index {V} (e : N * (jsstr * V)) (l : list (N * (jsstr * V)))
  : list (N * (jsstr * V)) :=
  match l with
  | [] => [e]
  | e' :: rest =>
      if (fst e <? fst e')%N then e :: l else e' :: insert_index e rest
  end.

Definition index_props {V} (o : obj V) : list (N * (jsstr * V)) :=
  fold_right
    (fun kv acc =>
       match array_index (fst kv) with
       | Some n => insert_index (n, kv) acc
       | None => acc
       end) [] o.

Definition string_props {V} (o : obj V) : list (jsstr * V) :=
  filter (fun kv => match array_index (fst kv) with
                    | Some _ => false | None => true end) o.

(** [Object.entries(o)] *)
Definition entries {V} (o : obj V) : list (jsstr * V) :=
  map snd (index_props o) ++ string_props o.

(** [Object.keys(o)] *)
Definition keys {V} (o : obj V) : list jsstr := map fst (entries o).

End JsObject.
Import JsObject.

(* ================================================================== *)
(** * src/types.ts *)
(* ================================================================== *)

Inductive PointShape : Type := circle | square | diamond | cross.

Record CategoryStyle : Type := mkStyle {
  style_color : jsstr;
  shape : PointShape;
  visible : bool
}.

(** A [DataPoint].  The field [color] is declared a string; at run time it
    holds whatever [categoryColors[label]] evaluated to. *)
Record DataPoint : Type := mkPoint {
  x : float;
  y : float;
  z : float;
  label : jsstr;
  metadata : jsstr;
  color : lookup jsstr
}.

(** The palette literal, the same in [processCSV] and [handleDataLoaded]. *)
Definition colorPalette : list jsstr :=
  map lit [ "#60a5fa"; "#f87171"; "#34d399"; "#fbbf24"; "#a78bfa";
            "#f472b6"; "#2dd4bf"; "#fb923c"; "#818cf8"; "#94a3b8" ]%string.

(** [colorPalette[i % colorPalette.length]] *)
Definition palette_at (i : nat) : jsstr :=
  nth (i mod List.length colorPalette) colorPalette [].

(* ================================================================== *)
(** * The FileUpload component (src/unnamed/part_000): processCSV *)
(* ================================================================== *)

Section FileUpload.

(** The built-in [parseFloat], on the text of its argument. *)
Variable parseFloat : jsstr -> float.

(** [parseFloat(cols[i])]: a missing column is [undefined]. *)
Definition parse_col (c : option jsstr) : float :=
  match c with
  | Some s => parseFloat s
  | None => parseFloat undefined_text
  end.

(** [text.split('\n').filter(line => line.trim().length > 0)] *)
Definition nonblank (line : jsstr) : bool :=
  (0 <? List.length (trim line))%nat.

Definition csv_lines (text : jsstr) : list jsstr :=
  filter nonblank (split newline text).

(** [line.split(',').map(c => c.trim())] *)
Definition columns (line : jsstr) : list jsstr :=
  map trim (split comma line).

(** The mutable locals the [map] callback closes over. *)
Record csv_state : Type := mkCsv {
  categoryColors : obj jsstr;
  colorIndex : nat
}.

Definition csv_init : csv_state := mkCsv empty 0.

(** The body of the [lines.map] callback. *)
Definition process_line (st : csv_state) (line : jsstr)
  : csv_state * DataPoint :=
  let cols := columns line in
  let x := or_zero (parse_col (nth_error cols 0)) in
  let y := or_zero (parse_col (nth_error cols 1)) in
  let z := or_zero (parse_col (nth_error cols 2)) in
  let label := or_default (nth_error cols 3) (lit "Unlabeled") in
  let metadata := or_default (nth_error cols 4) [] in
  let st' :=
    if negb (truthy truthy_str (get (categoryColors st) label))
    then mkCsv (put (categoryColors st) label (palette_at (colorIndex st)))
               (S (colorIndex st))
    else st in
  (st', mkPoint x y z label metadata (get (categoryColors st') label)).

Fixpoint process_lines (st : csv_state) (lines : list jsstr)
  : list DataPoint :=
  match lines with
  | [] => []
  | line :: rest =>
      let (st', p) := process_line st line in
      p :: process_lines st' rest
  end.

(** The points handed to [onDataLoaded]. *)
Definition processCSV (text : jsstr) : list DataPoint :=
  process_lines csv_init (csv_lines text).

End FileUpload.

(* ================================================================== *)
(** * src/App.tsx: handleDataLoaded *)
(* ================================================================== *)

(** ** [Set] of strings: insertion order, no duplicates *)

Definition set_add (s : list jsstr) (v : jsstr) : list jsstr :=
  if mem_str v s then s else s ++ [v].

(** [Array.from(new Set(values))] *)
Definition array_from_set (values : list jsstr) : list jsstr :=
  fold_left set_add values [].

(** ** The style registry

    [styles] starts as [{}] and is filled by plain assignments
    [styles[cat] = {...}].  The stored values are objects, so an assignment
    under the key [__proto__] runs the accessor of [Object.prototype] and
    replaces the prototype of [styles] instead of creating a property. *)
Record styles_obj : Type := mkStyles {
  st_own : obj CategoryStyle;
  st_proto : option CategoryStyle   (* [None]: still [Object.prototype] *)
}.

Definition styles_empty : styles_obj := mkStyles empty None.

Definition style_fields : list jsstr :=
  map lit [ "color"; "shape"; "visible" ]%string.

(** [styles[k]] *)
Definition styles_get (o : styles_obj) (k : jsstr) : lookup CategoryStyle :=
  match own (st_own o) k with
  | Some s => Val s
  | None =>
      match st_proto o with
      | Some s =>
          if str_eqb k proto_key then Val s
          else if (mem_str k style_fields || mem_str k ObjectPrototype)%bool
               then Inherited k else Undefined
      | None => if mem_str k ObjectPrototype then Inherited k else Undefined
      end
  end.

(** [styles[k] = s] *)
Definition styles_assign (o : styles_obj) (k : jsstr) (s : CategoryStyle)
  : styles_obj :=
  match own (st_own o) k with
  | Some _ => mkStyles (put (st_own o) k s) (st_proto o)
  | None =>
      if str_eqb k proto_key then mkStyles (st_own o) (Some s)
      else mkStyles (put (st_own o) k s) (st_proto o)
  end.

Record VisualizationState : Type := mkState {
  points : list DataPoint;
  categories : list jsstr;
  categoryStyles : styles_obj;
  showAxes : bool;
  isLoading : bool;
  error : option jsstr
}.

(** The initial state of [App]. *)
Definition initial_state : VisualizationState :=
  mkState [] [] styles_empty true false None.

(** [categories.forEach((cat, i) => { styles[cat] = {...} })], from index [i]. *)
Fixpoint default_styles (cats : list jsstr) (i : nat) (styles : styles_obj)
  : styles_obj :=
  match cats with
  | [] => styles
  | cat :: rest =>
      default_styles rest (S i)
        (styles_assign styles cat (mkStyle (palette_at i) circle true))
  end.

(** [handleDataLoaded(points)], as the update applied to the previous state. *)
Definition handleDataLoaded (pts : list DataPoint) (prev : VisualizationState)
  : VisualizationState :=
  let cats := array_from_set (map label pts) in
  let styles := default_styles cats 0 styles_empty in
  mkState pts cats styles (showAxes prev) false None.

(* ================================================================== *)
(** * src/App.tsx: the other state updates *)
(* ================================================================== *)

(** [Partial<CategoryStyle>]: the fields an update carries. *)
Record StyleUpdate : Type := mkUpdate {
  set_color : option jsstr;
  set_shape : option PointShape;
  set_visible : option bool
}.

(** [{ ...style, ...updates }] over a style. *)
Definition apply_update (s : CategoryStyle) (u : StyleUpdate) : CategoryStyle :=
  mkStyle (match set_color u with Some c => c | None => style_color s end)
          (match set_shape u with Some sh => sh | None => shape s end)
          (match set_visible u with Some b => b | None => visible s end).

(** [{ ...prev.categoryStyles[category], ...updates }].  Spreading
    [undefined] adds nothing, so the result has the fields of [updates]
    only.  [None] stands for an object that is not a [CategoryStyle] (a
    field is missing, or the base is an inherited value, which may add
    properties of its own): the registry of this model cannot hold it. *)
Definition merge_style (base : lookup CategoryStyle) (u : StyleUpdate)
  : option CategoryStyle :=
  match base with
  | Val s => Some (apply_update s u)
  | Undefined =>
      match set_color u, set_shape u, set_visible u with
      | Some c, Some sh, Some b => Some (mkStyle c sh b)
      | _, _, _ => None
      end
  | Inherited _ => None
  end.

(** [{ ...styles, [k]: s }]: a new ordinary object.  The own properties
    of [styles] are copied in enumeration order, then the computed key is
    defined as an own property (also when it is [__proto__]); a prototype
    installed on [styles] is not carried over. *)
Definition spread_with (o : styles_obj) (k : jsstr) (s : CategoryStyle)
  : styles_obj :=
  mkStyles (put (entries (st_own o)) k s) None.

(** [updateCategoryStyle(category, updates)], as the update applied to the
    previous state; [None] where [merge_style] is. *)
Definition updateCategoryStyle (category : jsstr) (u : StyleUpdate)
  (prev : VisualizationState) : option VisualizationState :=
  match merge_style (styles_get (categoryStyles prev) category) u with
  | Some s =>
      Some (mkState (points prev) (categories prev)
                    (spread_with (categoryStyles prev) category s)
                    (showAxes prev) (isLoading prev) (error prev))
  | None => None
  end.


(** [clearData()]: the state it sets, whatever the previous one. *)
Definition clearData (prev : VisualizationState) : VisualizationState :=
  mkState [] [] styles_empty true false None.

(** What [App] puts in the viewport: the visualizer when there are points,
    the upload card otherwise. *)
Definition shows_visualizer (st : VisualizationState) : bool :=
  (0 <? List.length (points st))%nat.


(* ================================================================== *)
(** * src/components/DataVisualizer.tsx *)
(* ================================================================== *)

(** A computation that may throw. *)
Inductive result (A : Type) : Type :=
| Ok (a : A)
| Throw (e : jsstr).
Arguments Ok {A} a.
Arguments Throw {A} e.

Definition TypeError : jsstr := lit "TypeError".

(** ** pointsByCategory *)

(** The [points.forEach] loop over the accumulator [groups].  An array is
    truthy, and so is whatever [groups] inherits; [push] exists on arrays
    only, and grows the array it is called on in place. *)
Fixpoint group_points (groups : obj (list DataPoint)) (pts : list DataPoint)
  : result (obj (list DataPoint)) :=
  match pts with
  | [] => Ok groups
  | p :: rest =>
      let groups1 :=
        match get groups (label p) with
        | Undefined => put groups (label p) []
        | _ => groups
        end in
      match get groups1 (label p) with
      | Val arr => group_points (put groups1 (label p) (arr ++ [p])) rest
      | _ => Throw TypeError
      end
  end.

Definition pointsByCategory (pts : list DataPoint)
  : result (obj (list DataPoint)) :=
  group_points empty pts.

(** The props of the [CategoryPoints] elements, in the order
    [Object.entries(pointsByCategory).map] creates them. *)
Definition category_props (groups : obj (list DataPoint)) (styles : styles_obj)
  : list (list DataPoint * lookup CategoryStyle) :=
  map (fun e => (snd e, styles_get styles (fst e))) (entries groups).

(** ** createShapeTexture *)

Inductive canvas_op : Type :=
| set_fillStyle_white
| beginPath
| arc_full (cx cy r : nat)          (* [arc(cx, cy, r, 0, Math.PI * 2)] *)
| fill
| fillRect (left top w h : nat)
| moveTo (px py : nat)
| lineTo (px py : nat)
| closePath.

(** A [CanvasTexture] over a fresh 64 x 64 canvas: the identity of the
    object and what was drawn on it. *)
Record CanvasTexture : Type := mkTexture {
  texture_id : nat;
  canvas_width : nat;
  canvas_height : nat;
  drawn : list canvas_op
}.

Definition shape_ops (s : PointShape) : list canvas_op :=
  match s with
  | circle => [beginPath; arc_full 32 32 28; fill]
  | square => [fillRect 8 8 48 48]
  | diamond => [beginPath; moveTo 32 8; lineTo 56 32; lineTo 32 56;
                lineTo 8 32; closePath; fill]
  | cross => [fillRect 24 8 16 48; fillRect 8 24 48 16]
  end.

(** [createShapeTexture(shape)]: [created] counts the canvases made so far,
    and names the next one. *)
Definition createShapeTexture (s : PointShape) (created : nat)
  : CanvasTexture * nat :=
  (mkTexture created 64 64 (set_fillStyle_white :: shape_ops s), S created).

Definition shape_eqb (a b : PointShape) : bool :=
  match a, b with
  | circle, circle | square, square | diamond, diamond | cross, cross => true
  | _, _ => false
  end.

(** [useMemo(() => createShapeTexture(style.shape), [style.shape])]: the
    cell of one component instance keeps the last dependency and value. *)
Definition memo_cell : Type := option (PointShape * CanvasTexture).

Definition useMemo_texture (cell : memo_cell) (s : PointShape) (created : nat)
  : CanvasTexture * memo_cell * nat :=
  match cell with
  | Some (s0, t) =>
      if shape_eqb s0 s then (t, cell, created)
      else let (t', created') := createShapeTexture s created in
           (t', Some (s, t'), created')
  | None =>
      let (t', created') := createShapeTexture s created in
      (t', Some (s, t'), created')
  end.

(** Renders of one [CategoryPoints] instance with the given shapes in turn:
    the textures it used. *)
Fixpoint render_shapes (cell : memo_cell) (shapes : list PointShape)
  (created : nat) : list CanvasTexture * nat :=
  match shapes with
  | [] => ([], created)
  | s :: rest =>
      let '(t, cell', created') := useMemo_texture cell s created in
      let (ts, created'') := render_shapes cell' rest created' in
      (t :: ts, created'')
  end.

(** First renders of several [CategoryPoints] instances, one per style. *)
Fixpoint mount_textures (shapes : list PointShape) (created : nat)
  : list CanvasTexture * nat :=
  match shapes with
  | [] => ([], created)
  | s :: rest =>
      let '(t, _, created') := useMemo_texture None s created in
      let (ts, created'') := mount_textures rest created' in
      (t :: ts, created'')
  end.

(** ** CategoryPoints: picking and rendering *)

(** What the raycaster finds for one point of a [Points] mesh under the
    picking threshold: the distance along the ray, or nothing. *)
Definition Ray : Type := DataPoint -> option Q.

Record Intersection : Type := mkHit {
  distance : Q;
  index : nat
}.

(** The intersections with the points of one mesh, in buffer order. *)
Fixpoint hits_from (ray : Ray) (i : nat) (pts : list DataPoint)
  : list Intersection :=
  match pts with
  | [] => []
  | p :: rest =>
      match ray p with
      | Some d => mkHit d i :: hits_from ray (S i) rest
      | None => hits_from ray (S i) rest
      end
  end.

Fixpoint insert_hit (h : Intersection) (l : list Intersection)
  : list Intersection :=
  match l with
  | [] => [h]
  | h' :: rest =>
      if Qle_bool (distance h) (distance h') then h :: l
      else h' :: insert_hit h rest
  end.

(** [intersects.sort((a, b) => a.distance - b.distance)], a stable sort. *)
Definition sort_hits (l : list Intersection) : list Intersection :=
  fold_right insert_hit [] l.

(** [raycaster.intersectObject(meshRef.current)] *)
Definition intersectObject (ray : Ray) (pts : list DataPoint)
  : list Intersection :=
  sort_hits (hits_from ray 0 pts).

(** The [useFrame] callback of one [CategoryPoints]: the argument of the
    [onHover] call it makes, if it makes one. *)
Definition pick (ray : Ray) (pts : list DataPoint) (style : CategoryStyle)
  : option (option DataPoint) :=
  if negb (visible style) then None
  else match intersectObject ray pts with
       | [] => Some None
       | h :: _ => Some (nth_error pts (index h))
       end.




(** The [onHover] calls of one frame, in the order of the batches. *)
Definition frame_reports (ray : Ray)
  (batches : list (list DataPoint * CategoryStyle))
  : list (option DataPoint) :=
  flat_map (fun b => match pick ray (fst b) (snd b) with
                     | Some r => [r]
                     | None => []
                     end) batches.

(** ** The state of [DataVisualizer] and the window's timers *)

Inductive callback : Type :=
| clear_hover       (* [() => setHoveredPoint(null)] *)
| reset_trigger.    (* [() => setScreenshotTrigger(false)] *)

Record timer : Type := mkTimer {
  timer_id : nat;
  due : nat;          (* in milliseconds *)
  action : callback
}.

Record Visualizer : Type := mkVis {
  hoveredPoint : option DataPoint;
  selectedPoint : option DataPoint;
  screenshotTrigger : bool;
  hoverTimeout : option nat;     (* [hoverTimeout.current] *)
  timers : list timer;           (* pending, in creation order *)
  next_timer_id : nat;
  clock : nat                    (* in milliseconds *)
}.

Definition initial_visualizer : Visualizer :=
  mkVis None None false None [] 1 0.

(** [window.setTimeout(action, delay)]: the new state and the id. *)
Definition setTimeout (a : callback) (delay : nat) (v : Visualizer)
  : Visualizer * nat :=
  let id := next_timer_id v in
  (mkVis (hoveredPoint v) (selectedPoint v) (screenshotTrigger v)
         (hoverTimeout v)
         (timers v ++ [mkTimer id (clock v + delay) a])
         (S id) (clock v),
   id).

(** [window.clearTimeout(id)] *)
Definition clearTimeout (id : nat) (v : Visualizer) : Visualizer :=
  mkVis (hoveredPoint v) (selectedPoint v) (screenshotTrigger v)
        (hoverTimeout v)
        (filter (fun t => negb (timer_id t =? id)) (timers v))
        (next_timer_id v) (clock v).

Definition setHoveredPoint (p : option DataPoint) (v : Visualizer)
  : Visualizer :=
  mkVis p (selectedPoint v) (screenshotTrigger v) (hoverTimeout v)
        (timers v) (next_timer_id v) (clock v).

Definition setSelectedPoint (p : option DataPoint) (v : Visualizer)
  : Visualizer :=
  mkVis (hoveredPoint v) p (screenshotTrigger v) (hoverTimeout v)
        (timers v) (next_timer_id v) (clock v).

Definition setScreenshotTrigger (b : bool) (v : Visualizer) : Visualizer :=
  mkVis (hoveredPoint v) (selectedPoint v) b (hoverTimeout v)
        (timers v) (next_timer_id v) (clock v).

Definition set_hoverTimeout (id : nat) (v : Visualizer) : Visualizer :=
  mkVis (hoveredPoint v) (selectedPoint v) (screenshotTrigger v) (Some id)
        (timers v) (next_timer_id v) (clock v).

(** [handleHover(point)] *)
Definition handleHover (point : option DataPoint) (v : Visualizer)
  : Visualizer :=
  let v1 :=
    match hoverTimeout v with
    | Some id => if id =? 0 then v else clearTimeout id v
    | None => v
    end in
  match point with
  | Some p => setHoveredPoint (Some p) v1
  | None =>
      let (v2, id) := setTimeout clear_hover 50 v1 in
      set_hoverTimeout id v2
  end.

(** [takeScreenshot()]: returns nothing. *)
Definition takeScreenshot (v : Visualizer) : Visualizer * unit :=
  let v1 := setScreenshotTrigger true v in
  let (v2, _) := setTimeout reset_trigger 100 v1 in
  (v2, tt).

Definition run_callback (a : callback) (v : Visualizer) : Visualizer :=
  match a with
  | clear_hover => setHoveredPoint None v
  | reset_trigger => setScreenshotTrigger false v
  end.

Definition is_due (now : nat) (t : timer) : bool := due t <=? now.

(** [d] milliseconds pass without a call into the component: the timers
    that come due fire and leave the queue.  The two callbacks write
    different state variables, so the order among them does not matter. *)
Definition elapse (d : nat) (v : Visualizer) : Visualizer :=
  let now := clock v + d in
  let fired := filter (is_due now) (timers v) in
  let waiting := filter (fun t => negb (is_due now t)) (timers v) in
  fold_left (fun w t => run_callback (action t) w) fired
    (mkVis (hoveredPoint v) (selectedPoint v) (screenshotTrigger v)
           (hoverTimeout v) waiting (next_timer_id v) now).

(** One rendered frame: every [CategoryPoints] runs its [useFrame]
    callback, in the order of the batches. *)
Definition run_frame (ray : Ray)
  (batches : list (list DataPoint * CategoryStyle)) (v : Visualizer)
  : Visualizer :=
  fold_left (fun w r => handleHover r w) (frame_reports ray batches) v.

(** ** The transient overlays of the render output *)

Inductive overlay : Type :=
| hover_tooltip (p : DataPoint)        (* the [Html] label at the point *)
| selection_panel (p : DataPoint).     (* the "Point Details" panel *)

Definition is_some {A} (o : option A) : bool :=
  match o with Some _ => true | None => false end.

Definition tooltip (v : Visualizer) : list overlay :=
  match hoveredPoint v with
  | Some p =>
      if (negb (is_some (selectedPoint v)) && negb (screenshotTrigger v))%bool
      then [hover_tooltip p] else []
  | None => []
  end.

Definition panel (v : Visualizer) : list overlay :=
  match selectedPoint v with
  | Some p => if negb (screenshotTrigger v) then [selection_panel p] else []
  | None => []
  end.

Definition overlays (v : Visualizer) : list overlay := tooltip v ++ panel v.

(** ** Capture *)

(** The renderer, as far as [handleCapture] uses it: what
    [gl.domElement.toDataURL('image/png')] does. *)
Record WebGLRenderer : Type := mkGL {
  toDataURL_png : result jsstr
}.

Fixpoint starts_with (pat s : jsstr) : bool :=
  match pat, s with
  | [], _ => true
  | a :: pat', b :: s' => ((a =? b)%N && starts_with pat' s')%bool
  | _ :: _, [] => false
  end.

(** [s.replace(pat, rep)] with a string pattern: the first occurrence. *)
Fixpoint replace (pat rep s : jsstr) : jsstr :=
  if starts_with pat s then rep ++ skipn (List.length pat) s
  else match s with
       | [] => []
       | c :: rest => c :: replace pat rep rest
       end.

(** The download the link click starts: the file is named
    [VoxNavigator-3D-<stamp>.png]. *)
Record download : Type := mkDownload {
  stamp : N;
  href : jsstr
}.

(** [handleCapture(gl)] at time [now]. *)
Definition handleCapture (now : N) (gl : WebGLRenderer) : result download :=
  match toDataURL_png gl with
  | Ok url =>
      Ok (mkDownload now
            (replace (lit "image/png") (lit "image/octet-stream") url))
  | Throw e => Throw e
  end.

(** The effect of [SceneCapture], run after a render in which [trigger]
    changed: the downloads it starts. *)
Definition capture_effect (trigger : bool) (now : N) (gl : WebGLRenderer)
  : result (list download) :=
  if trigger then
    match handleCapture now gl with
    | Ok d => Ok [d]
    | Throw e => Throw e
    end
  else Ok [].


(** ** Selection *)

(** The [onClick] handler of a [<points>] element, for the event index
    [e.index]: [onSelect(points[e.index])] unless the index is undefined. *)
Definition onClick_points (pts : list DataPoint) (index : option nat)
  (v : Visualizer) : Visualizer :=
  match index with
  | Some i => setSelectedPoint (nth_error pts i) v
  | None => v
  end.

(** [onPointerMissed] of the canvas, and the close button of the panel. *)
Definition onPointerMissed (v : Visualizer) : Visualizer :=
  setSelectedPoint None v.

(** The colour handed to [SelectionHighlight]:
    [categoryStyles[selectedPoint.label]?.color || '#fff']. *)
Definition highlight_color (styles : styles_obj) (p : DataPoint) : jsstr :=
  match styles_get styles (label p) with
  | Val s => if truthy_str (style_color s) then style_color s else lit "#fff"
  | _ => lit "#fff"
  end.

(** The [SelectionHighlight] element: where it stands and its tint. *)
Definition SelectionHighlight (styles : styles_obj) (v : Visualizer)
  : option (DataPoint * jsstr) :=
  match selectedPoint v with
  | Some p => Some (p, highlight_color styles p)
  | None => None
  end.

(** ** The effect of [SceneCapture] across renders *)

(** The effect has the dependencies [[trigger, gl, onCapture]], of which
    only [trigger] ever changes: it runs after a render whose [trigger]
    differs from the one of the render before. *)
Definition render_effect (before after : Visualizer) (now : N)
  (gl : WebGLRenderer) : result (list download) :=
  if Bool.eqb (screenshotTrigger before) (screenshotTrigger after)
  then Ok []
  else capture_effect (screenshotTrigger after) now gl.

(* ================================================================== *)
(** * The Sidebar component (src/unnamed/part_000) *)
(* ================================================================== *)

Definition SHAPES : list PointShape := [circle; square; diamond; cross].

Definition PALETTE : list jsstr :=
  map lit [ "#ef4444"; "#f97316"; "#f59e0b"; "#84cc16"; "#10b981";
            "#06b6d4"; "#3b82f6"; "#6366f1"; "#a855f7"; "#ec4899";
            "#64748b"; "#ffffff" ]%string.




(** [style.visible] as a row reads it: undefined on an inherited value. *)
Definition row_visible (style : lookup CategoryStyle) : bool :=
  match style with
  | Val s => visible s
  | _ => false
  end.

(** The eye button of a row:
    [onUpdateStyle(cat, { visible: !style.visible })]. *)
Definition click_eye (cat : jsstr) (st : VisualizationState)
  : option VisualizationState :=
  updateCategoryStyle cat
    (mkUpdate None None
       (Some (negb (row_visible (styles_get (categoryStyles st) cat)))))
    st.

(** A swatch of the colour picker: [onUpdateStyle(cat, { color })]. *)
Definition click_color (cat : jsstr) (c : jsstr) (st : VisualizationState)
  : option VisualizationState :=
  updateCategoryStyle cat (mkUpdate (Some c) None None) st.

(** A button of the shape selection: [onUpdateStyle(cat, { shape })]. *)
Definition click_shape (cat : jsstr) (sh : PointShape)
  (st : VisualizationState) : option VisualizationState :=
  updateCategoryStyle cat (mkUpdate None (Some sh) None) st.


(* ================================================================== *)
(** * What the specification says, in its own words *)
(* ================================================================== *)





(** "the order of first occurrence of each distinct label": every label
    once, where it occurs first. *)
Fixpoint first_occurrences (l : list jsstr) : list jsstr :=
  match l with
  | [] => []
  | a :: rest =>
      a :: filter (fun b => negb (str_eqb b a)) (first_occurrences rest)
  end.

(** The points of a sequence that carry the label [l], in input order. *)
Definition with_label (l : jsstr) (pts : list DataPoint) : list DataPoint :=
  filter (fun p => str_eqb (label p) l) pts.

(** The default style of the category with index [k] in [categories]. *)
Definition default_style (k : nat) : CategoryStyle :=
  mkStyle (palette_at k) circle true.

(** The style of a category after its visibility was switched off. *)
Definition hide (style : CategoryStyle) : CategoryStyle :=
  mkStyle (style_color style) (shape style) false.

(* ================================================================== *)
(** * Traces and invariants used in the proofs *)
(* ================================================================== *)

(** The label [processCSV] gives the point of a line. *)
Definition line_label (line : jsstr) : jsstr :=
  or_default (nth_error (columns line) 3) (lit "Unlabeled").

(** The position of a label in a list of distinct labels. *)
Fixpoint index_of (l : jsstr) (s : list jsstr) : option nat :=
  match s with
  | [] => None
  | a :: rest =>
      if str_eqb l a then Some 0 else option_map S (index_of l rest)
  end.

(** The state of the [processCSV] loop after it has met the labels [seen],
    each for the first time in this order: [categoryColors] holds the
    palette colour of its position for each of them and nothing else. *)
Definition colors_follow (st : csv_state) (seen : list jsstr) : Prop :=
  colorIndex st = List.length seen /\
  forall l, own (categoryColors st) l
            = option_map palette_at (index_of l seen).

(** The head of a list is no farther than any of its elements. *)
Definition head_closest (l : list Intersection) : Prop :=
  match l with
  | [] => True
  | a :: _ => forall b, In b l -> (distance a <= distance b)%Q
  end.

(** The last point among the reports of a frame, [d] when there is none. *)
Definition last_hit (rs : list (option DataPoint)) (d : option DataPoint)
  : option DataPoint :=
  fold_left (fun acc r => match r with Some p => Some p | None => acc end)
            rs d.

(** Hover reports at varying intervals: for each pair [(gap, r)] in turn,
    [gap] milliseconds pass and then [handleHover r] is called. *)
Fixpoint reports_spaced (rs : list (nat * option DataPoint))
  (v : Visualizer) : Visualizer :=
  match rs with
  | [] => v
  | (gap, r) :: rest => reports_spaced rest (handleHover r (elapse gap v))
  end.

Definition is_clear (t : timer) : bool :=
  match action t with clear_hover => true | reset_trigger => false end.

(** Every pending clear timer is the one [hoverTimeout.current] names.
    It holds initially and every operation of the component keeps it. *)
Definition clear_timers_owned (v : Visualizer) : Prop :=
  1 <= next_timer_id v /\
  forall t, In t (timers v) -> is_clear t = true ->
            hoverTimeout v = Some (timer_id t) /\ 1 <= timer_id t.

(** The state right after a hover report: a pending clear timer was armed
    by this very report. *)
Definition just_reported (v : Visualizer) : Prop :=
  clear_timers_owned v /\
  forall t, In t (timers v) -> is_clear t = true -> due t = clock v + 50.






Definition is_reset (t : timer) : bool :=
  match action t with reset_trigger => true | clear_hover => false end.

(** A field as [processCSV] keeps it: trimmed, and free of the two
    separators. *)
Definition clean_field (s : jsstr) : Prop :=
  trim s = s /\ ~ In comma s /\ ~ In newline s.

Definition starts_clean (s : jsstr) : bool :=
  match s with
  | [] => true
  | c :: _ => negb (is_white_space c)
  end.

(** [n] rendered frames over the same batches with the same pointer ray,
    [gap] milliseconds apart. *)
Fixpoint frames (gap n : nat) (ray : Ray)
  (batches : list (list DataPoint * CategoryStyle)) (v : Visualizer)
  : Visualizer :=
  match n with
  | O => v
  | S k => frames gap k ray batches (run_frame ray batches (elapse gap v))
  end.

(* ================================================================== *)
(** * Example inputs *)
(* ================================================================== *)

(** [parseFloat] on the texts that begin (after white space) with an
    unsigned decimal integer and carry no fraction or exponent, which is
    all the examples below need; [NaN] on a text with no leading digit. *)
Definition digit_value (c : N) : float :=
  match c with
  | 48%N => 0%float | 49%N => 1%float | 50%N => 2%float | 51%N => 3%float
  | 52%N => 4%float | 53%N => 5%float | 54%N => 6%float | 55%N => 7%float
  | 56%N => 8%float | _ => 9%float
  end.

Fixpoint leading_digits (s : jsstr) : jsstr :=
  match s with
  | c :: rest => if is_digit c then c :: leading_digits rest else []
  | [] => []
  end.

Definition parseFloat_unsigned (s : jsstr) : float :=
  match leading_digits (trimStart s) with
  | [] => PrimFloat.nan
  | ds => fold_left (fun acc c => (acc * 10 + digit_value c)%float) ds
                    0%float
  end.

(** Concrete inputs used below. *)
Definition csv_of_lines (ls : list jsstr) : jsstr :=
  List.concat (map (fun l => l ++ [newline]) ls).

(** Two rows, the first labelled [constructor]. *)
Definition inherited_label_csv : jsstr :=
  csv_of_lines [lit "0,0,0,constructor"; lit "1,1,1,A"]%string.

(** Two rows with the numeric labels [2] and [1], in this order. *)
Definition numeric_label_csv : jsstr :=
  csv_of_lines [lit "0,0,0,2"; lit "5,5,5,1"]%string.

(** Three rows over the categories [A] and [B]. *)
Definition plain_csv : jsstr :=
  csv_of_lines [lit "0,0,0,A"; lit "1,1,1,B,second"; lit "2,2,2,A"]%string.

(** Two points of the categories [A] and [B], and a pointer ray that passes
    within the picking threshold of both, [A]'s point at distance 1 and
    [B]'s at distance 5. *)
Definition near_point : DataPoint :=
  mkPoint 0%float 0%float 0%float (lit "A") [] (Val (palette_at 0)).

Definition far_point : DataPoint :=
  mkPoint 0%float 5%float 0%float (lit "B") (lit "x") (Val (palette_at 1)).

Definition through_both : Ray :=
  fun p =>
    if str_eqb (label p) (lit "A") then Some (1 # 1)%Q
    else if str_eqb (label p) (lit "B") then Some (5 # 1)%Q
    else None.

Definition two_batches : list (list DataPoint * CategoryStyle) :=
  [ ([near_point], mkStyle (palette_at 0) circle true);
    ([far_point], mkStyle (palette_at 1) circle true) ].


Definition working_renderer : WebGLRenderer :=
  mkGL (Ok (lit "data:image/png;base64,iVBORw0KGgo=")).

(* ================================================================== *)
(** * Facts about strings, sets and objects *)
(* ================================================================== *)

Lemma str_eqb_eq : forall a b, str_eqb a b = true <-> a = b.
Proof.
  intros a b. unfold str_eqb.
  destruct (jsstr_eq_dec a b); split; congruence.
Qed.

Lemma str_eqb_refl : forall a, str_eqb a a = true.
Proof. intro a. apply str_eqb_eq. reflexivity. Qed.

Lemma str_eqb_neq : forall a b, str_eqb a b = false <-> a <> b.
Proof.
  intros a b. unfold str_eqb.
  destruct (jsstr_eq_dec a b); split; congruence.
Qed.

Lemma mem_str_In : forall k l, mem_str k l = true <-> In k l.
Proof.
  intros k l. unfold mem_str. rewrite existsb_exists. split.
  - intros [y [Hy He]]. apply str_eqb_eq in He. subst. assumption.
  - intros H. exists k. split; [assumption | apply str_eqb_refl].
Qed.

Lemma mem_str_not_In : forall k l, mem_str k l = false <-> ~ In k l.
Proof.
  intros k l. rewrite <- mem_str_In.
  destruct (mem_str k l); split; congruence.
Qed.

Lemma mem_str_app : forall k a b,
  mem_str k (a ++ b) = (mem_str k a || mem_str k b)%bool.
Proof. intros k a b. unfold mem_str. apply existsb_app. Qed.

Lemma filter_filter_and : forall (A : Type) (f g : A -> bool) (l : list A),
  filter f (filter g l) = filter (fun a => (g a && f a)%bool) l.
Proof.
  intros A f g l. induction l as [|a rest IH]; simpl.
  - reflexivity.
  - destruct (g a); simpl; [destruct (f a) |]; rewrite IH; reflexivity.
Qed.

Lemma own_put_same : forall (V : Type) (o : obj V) k v,
  own (put o k v) k = Some v.
Proof.
  intros V o k v. induction o as [|[k' v'] rest IH]; simpl.
  - rewrite str_eqb_refl. reflexivity.
  - destruct (str_eqb k k') eqn:E; simpl; rewrite E; [reflexivity | exact IH].
Qed.

Lemma own_put_other : forall (V : Type) (o : obj V) k k' v,
  k <> k' -> own (put o k' v) k = own o k.
Proof.
  intros V o k k' v Hne. induction o as [|[k0 v0] rest IH]; simpl.
  - apply str_eqb_neq in Hne. rewrite Hne. reflexivity.
  - destruct (str_eqb k' k0) eqn:E; simpl.
    + apply str_eqb_eq in E. subst k0.
      apply str_eqb_neq in Hne. rewrite Hne. reflexivity.
    + destruct (str_eqb k k0); [reflexivity | exact IH].
Qed.

Lemma mem_keys_own : forall (V : Type) (o : obj V) k,
  mem_str k (map fst o) = match own o k with Some _ => true | None => false end.
Proof.
  intros V o k. induction o as [|[k' v'] rest IH]; simpl.
  - reflexivity.
  - fold (mem_str k (map fst rest)). rewrite IH.
    destruct (str_eqb k k'); reflexivity.
Qed.

Lemma keys_put : forall (V : Type) (o : obj V) k v,
  map fst (put o k v) = set_add (map fst o) k.
Proof.
  intros V o k v. unfold set_add. rewrite mem_keys_own.
  induction o as [|[k' v'] rest IH]; simpl.
  - reflexivity.
  - destruct (str_eqb k k') eqn:E; simpl.
    + reflexivity.
    + rewrite IH. destruct (own rest k); reflexivity.
Qed.

Lemma set_add_idem : forall s l, set_add (set_add s l) l = set_add s l.
Proof.
  intros s l. unfold set_add at 2 3.
  destruct (mem_str l s) eqn:E.
  - unfold set_add. rewrite E. reflexivity.
  - unfold set_add. rewrite mem_str_app. simpl. rewrite str_eqb_refl.
    rewrite orb_true_r. reflexivity.
Qed.

Lemma get_not_inherited : forall (V : Type) (o : obj V) l,
  ~ In l ObjectPrototype ->
  get o l = match own o l with Some v => Val v | None => Undefined end.
Proof.
  intros V o l H. unfold get. apply mem_str_not_In in H. rewrite H.
  reflexivity.
Qed.

(** A lookup that is falsy found nothing on the prototype chain: the
    assignments guarded by [!o[k]] never reach the [__proto__] accessor,
    they create or overwrite an own property, which is what [put] does. *)
Lemma falsy_lookup_not_inherited : forall (V : Type) (tv : V -> bool)
  (o : obj V) k,
  truthy tv (get o k) = false ->
  own o k = None -> ~ In k ObjectPrototype /\ k <> proto_key.
Proof.
  intros V tv o k Hf Ho. unfold get in Hf. rewrite Ho in Hf.
  destruct (mem_str k ObjectPrototype) eqn:Hm; [discriminate |].
  apply mem_str_not_In in Hm. split; [exact Hm |].
  intro E. apply Hm. subst k. vm_compute. tauto.
Qed.

Lemma entries_without_index_keys : forall (V : Type) (o : obj V),
  (forall k, In k (map fst o) -> array_index k = None) ->
  entries o = o.
Proof.
  intros V o H. unfold entries.
  assert (Hi : index_props o = []).
  { induction o as [|[k v] rest IH]; simpl; [reflexivity |].
    rewrite (H k (or_introl eq_refl)). apply IH.
    intros k' Hk'. apply H. right. exact Hk'. }
  assert (Hs : string_props o = o).
  { unfold string_props. induction o as [|[k v] rest IH]; simpl;
      [reflexivity |].
    rewrite (H k (or_introl eq_refl)). f_equal. apply IH.
    - intros k' Hk'. apply H. right. exact Hk'.
    - clear IH Hi. induction rest as [|[k' v'] rest' IH']; simpl;
        [reflexivity |].
      rewrite (H k' (or_intror (or_introl eq_refl))). apply IH'.
      intros k'' [Hk''|Hk'']; apply H; [left | right; right]; assumption. }
  rewrite Hi, Hs. reflexivity.
Qed.

(* ================================================================== *)
(** * Ingestion: one point per non-blank line *)
(* ================================================================== *)

Section FileUploadFacts.

Variable parseFloat : jsstr -> float.







End FileUploadFacts.

(* ================================================================== *)
(** * Categories and default styles of [handleDataLoaded] *)
(* ================================================================== *)

Lemma set_add_fold : forall l acc,
  fold_left set_add l acc
  = acc ++ filter (fun b => negb (mem_str b acc)) (first_occurrences l).
Proof.
  induction l as [|a rest IH]; intro acc; simpl.
  - rewrite app_nil_r. reflexivity.
  - rewrite IH. unfold set_add.
    destruct (mem_str a acc) eqn:Ha; simpl.
    + f_equal. rewrite filter_filter_and. apply filter_ext.
      intro b. destruct (str_eqb b a) eqn:Hb; simpl; [| reflexivity].
      apply str_eqb_eq in Hb. subst b. rewrite Ha. reflexivity.
    + rewrite <- app_assoc. simpl. do 2 f_equal.
      rewrite filter_filter_and. apply filter_ext.
      intro b. rewrite mem_str_app. simpl. rewrite orb_false_r.
      rewrite negb_orb. apply andb_comm.
Qed.

Lemma array_from_set_first_occurrences : forall l,
  array_from_set l = first_occurrences l.
Proof.
  intro l. unfold array_from_set. rewrite set_add_fold. simpl.
  clear. induction (first_occurrences l) as [|a rest IH]; simpl.
  - reflexivity.
  - f_equal. exact IH.
Qed.

Lemma first_occurrences_In : forall l a,
  In a (first_occurrences l) <-> In a l.
Proof.
  induction l as [|b rest IH]; intro a; simpl.
  - reflexivity.
  - rewrite filter_In, IH. split.
    + intros [H|[H _]]; auto.
    + intros [H|H]; [left; exact H |].
      destruct (jsstr_eq_dec b a) as [E|E]; [left; exact E | right].
      split; [exact H |]. apply negb_true_iff. apply str_eqb_neq.
      congruence.
Qed.

Lemma first_occurrences_NoDup : forall l, NoDup (first_occurrences l).
Proof.
  induction l as [|b rest IH]; simpl.
  - constructor.
  - constructor.
    + rewrite filter_In. intros [_ H].
      rewrite str_eqb_refl in H. discriminate.
    + apply NoDup_filter. exact IH.
Qed.

Lemma styles_get_assign_same : forall o k s,
  styles_get (styles_assign o k s) k = Val s.
Proof.
  intros o k s. unfold styles_assign, styles_get.
  destruct (own (st_own o) k) eqn:Ho.
  - cbn [st_own st_proto]. rewrite own_put_same. reflexivity.
  - destruct (str_eqb k proto_key) eqn:Hp; cbn [st_own st_proto].
    + rewrite Ho. reflexivity.
    + rewrite own_put_same. reflexivity.
Qed.

Lemma styles_get_assign_other : forall o k k' s s',
  k <> k' -> styles_get o k = Val s ->
  styles_get (styles_assign o k' s') k = Val s.
Proof.
  intros o k k' s s' Hne Hget. unfold styles_assign.
  destruct (own (st_own o) k') eqn:Ho'.
  - unfold styles_get in *. cbn [st_own st_proto].
    rewrite own_put_other by exact Hne. exact Hget.
  - destruct (str_eqb k' proto_key) eqn:Hp'.
    + apply str_eqb_eq in Hp'. subst k'.
      unfold styles_get in *. cbn [st_own st_proto].
      destruct (own (st_own o) k) eqn:Ho; [exact Hget |].
      apply str_eqb_neq in Hne. rewrite Hne in Hget.
      destruct (st_proto o);
        [ destruct (mem_str k style_fields || mem_str k ObjectPrototype)%bool
        | destruct (mem_str k ObjectPrototype) ]; discriminate.
    + unfold styles_get in *. cbn [st_own st_proto].
      rewrite own_put_other by exact Hne. exact Hget.
Qed.

Lemma default_styles_keeps : forall cats i o k s,
  ~ In k cats -> styles_get o k = Val s ->
  styles_get (default_styles cats i o) k = Val s.
Proof.
  induction cats as [|c rest IH]; intros i o k s Hnin Hget; simpl.
  - exact Hget.
  - apply IH.
    + intro H. apply Hnin. right. exact H.
    + apply styles_get_assign_other; [| exact Hget].
      intro E. apply Hnin. left. symmetry. exact E.
Qed.

Lemma default_styles_lookup : forall cats i o,
  NoDup cats ->
  map (styles_get (default_styles cats i o)) cats
  = map (fun k => Val (default_style k)) (seq i (List.length cats)).
Proof.
  induction cats as [|c rest IH]; intros i o Hnd; simpl.
  - reflexivity.
  - inversion Hnd as [|? ? Hnin Hnd']; subst. f_equal.
    + apply default_styles_keeps; [exact Hnin |].
      apply styles_get_assign_same.
    + apply IH. exact Hnd'.
Qed.

Lemma palette_at_period : forall k, palette_at (k + 10) = palette_at k.
Proof.
  intro k. unfold palette_at. simpl List.length.
  replace (k + 10) with (k + 1 * 10) by lia.
  rewrite Nat.Div0.mod_add. reflexivity.
Qed.

Lemma colorPalette_NoDup : NoDup colorPalette.
Proof.
  unfold colorPalette. simpl.
  repeat (constructor; [simpl; intuition discriminate |]). constructor.
Qed.

Lemma palette_at_small : forall k, k < 10 -> nth_error colorPalette k = Some (palette_at k).
Proof.
  intros k Hk. unfold palette_at. simpl List.length.
  rewrite Nat.mod_small by exact Hk.
  do 10 (destruct k as [|k]; [reflexivity |]). lia.
Qed.

Lemma palette_at_truthy : forall k, truthy_str (palette_at k) = true.
Proof.
  intro k. unfold palette_at. simpl List.length.
  pose proof (Nat.mod_upper_bound k 10) as H.
  destruct (k mod 10) as [|m]; [reflexivity |].
  do 9 (destruct m as [|m]; [reflexivity |]). lia.
Qed.

Lemma palette_at_distinct : forall i j,
  i < 10 -> j < 10 -> i <> j -> palette_at i <> palette_at j.
Proof.
  intros i j Hi Hj Hne E. apply Hne.
  pose proof colorPalette_NoDup as Hnd.
  rewrite NoDup_nth_error in Hnd. apply Hnd.
  - simpl. exact Hi.
  - rewrite (palette_at_small i Hi), (palette_at_small j Hj), E. reflexivity.
Qed.

Lemma palette_0_1_differ : palette_at 0 <> palette_at 1.
Proof. vm_compute. discriminate. Qed.

(** X1.  [categories] lists every label of the ingested points once, in
    the order of first occurrence. *)
Theorem categories_in_first_occurrence_order :
  forall (pts : list DataPoint) (prev : VisualizationState),
    categories (handleDataLoaded pts prev) = first_occurrences (map label pts) /\
    NoDup (categories (handleDataLoaded pts prev)) /\
    (forall a, In a (categories (handleDataLoaded pts prev)) <->
               In a (map label pts)).
Proof.
  intros pts prev. simpl. rewrite array_from_set_first_occurrences.
  split; [reflexivity | split].
  - apply first_occurrences_NoDup.
  - apply first_occurrences_In.
Qed.

(** X2.  [handleDataLoaded] gives the category with index [k] of
    [categories] the style of colour [palette[k mod 10]], shape circle,
    visible; the palette has ten different colours, so two of the first
    ten categories never share a default colour, and the category [k + 10]
    reuses the colour of the category [k]. *)
Theorem default_styles_cycle_the_palette :
  forall (pts : list DataPoint) (prev : VisualizationState),
    let st := handleDataLoaded pts prev in
    map (styles_get (categoryStyles st)) (categories st)
    = map (fun k => Val (default_style k))
          (seq 0 (List.length (categories st))) /\
    List.length colorPalette = 10 /\
    (forall i j, i < 10 -> j < 10 -> i <> j -> palette_at i <> palette_at j) /\
    (forall k, palette_at (k + 10) = palette_at k).
Proof.
  intros pts prev. cbv zeta. split; [| split; [| split]].
  - simpl. apply default_styles_lookup.
    rewrite array_from_set_first_occurrences. apply first_occurrences_NoDup.
  - reflexivity.
  - exact palette_at_distinct.
  - exact palette_at_period.
Qed.

(* ================================================================== *)
(** * The colours of [processCSV] against the default styles *)
(* ================================================================== *)

(** C8, on the rows [0,0,0,constructor] and [1,1,1,A].  The distinct labels
    in first-seen order are [constructor] (k = 0) and [A] (k = 1).
    [processCSV] finds [categoryColors["constructor"]] truthy before it
    stored anything there (the object inherits it), so it assigns no palette
    colour to that label and does not advance [colorIndex]; [A], the label
    with k = 1, then receives [palette[0]] instead of [palette[1]]. *)
Theorem processCSV_inherited_label_shifts_palette :
  forall parseFloat : jsstr -> float,
    let pts := processCSV parseFloat inherited_label_csv in
    array_from_set (map label pts) = [lit "constructor"; lit "A"] /\
    map color pts = [Inherited (lit "constructor"); Val (palette_at 0)] /\
    palette_at 0 <> palette_at 1.
Proof.
  intro parseFloat. cbv zeta. split; [| split].
  - vm_compute. reflexivity.
  - vm_compute. reflexivity.
  - exact palette_0_1_differ.
Qed.

(** C10, on the same rows.  After ingestion the first point carries the
    inherited member of [Object.prototype] as its colour while its category
    style has [palette[0]]; the second point carries [palette[0]] while its
    category style has [palette[1]]. *)
Theorem point_color_differs_from_style_color :
  forall parseFloat : jsstr -> float,
    let pts := processCSV parseFloat inherited_label_csv in
    let st := handleDataLoaded pts initial_state in
    map (fun p => (color p, styles_get (categoryStyles st) (label p))) pts
    = [ (Inherited (lit "constructor"), Val (mkStyle (palette_at 0) circle true));
        (Val (palette_at 0), Val (mkStyle (palette_at 1) circle true)) ] /\
    palette_at 0 <> palette_at 1.
Proof.
  intro parseFloat. cbv zeta. split.
  - vm_compute. reflexivity.
  - exact palette_0_1_differ.
Qed.

Lemma index_of_mem : forall l s,
  mem_str l s = match index_of l s with Some _ => true | None => false end.
Proof.
  intros l s. induction s as [|a rest IH]; simpl.
  - reflexivity.
  - fold (mem_str l rest). rewrite IH.
    destruct (str_eqb l a); simpl; [reflexivity |].
    destruct (index_of l rest); reflexivity.
Qed.

Lemma index_of_app_found : forall l s t k,
  index_of l s = Some k -> index_of l (s ++ t) = Some k.
Proof.
  intros l s t. induction s as [|a rest IH]; intros k H; simpl in *.
  - discriminate.
  - destruct (str_eqb l a); [exact H |].
    destruct (index_of l rest) as [j|]; [| discriminate].
    rewrite (IH j eq_refl). exact H.
Qed.

Lemma index_of_app_new : forall l l' s,
  index_of l s = None ->
  index_of l (s ++ [l'])
  = if str_eqb l l' then Some (List.length s) else None.
Proof.
  intros l l' s. induction s as [|a rest IH]; intro H; simpl in *.
  - destruct (str_eqb l l'); reflexivity.
  - destruct (str_eqb l a); [discriminate |].
    destruct (index_of l rest); [discriminate |].
    rewrite (IH eq_refl). destruct (str_eqb l l'); reflexivity.
Qed.

Lemma index_of_nth_error : forall l s k,
  index_of l s = Some k -> nth_error s k = Some l.
Proof.
  intros l s. induction s as [|a rest IH]; intros k H; simpl in *.
  - discriminate.
  - destruct (str_eqb l a) eqn:E.
    + apply str_eqb_eq in E. inversion H. subst. reflexivity.
    + destruct (index_of l rest) as [j|]; [| discriminate].
      inversion H. subst. simpl. apply IH. reflexivity.
Qed.

Lemma index_of_set_add_fold : forall l rest s k,
  index_of l s = Some k -> index_of l (fold_left set_add rest s) = Some k.
Proof.
  intros l rest s k H. rewrite set_add_fold.
  apply index_of_app_found. exact H.
Qed.

Section ColourAgreement.

Variable parseFloat : jsstr -> float.

Lemma process_line_state : forall st line,
  fst (process_line parseFloat st line)
  = if negb (truthy truthy_str (get (categoryColors st) (line_label line)))
    then mkCsv (put (categoryColors st) (line_label line)
                    (palette_at (colorIndex st)))
               (S (colorIndex st))
    else st.
Proof. reflexivity. Qed.

Lemma process_line_label : forall st line,
  label (snd (process_line parseFloat st line)) = line_label line.
Proof. reflexivity. Qed.

Lemma process_line_color : forall st line,
  color (snd (process_line parseFloat st line))
  = get (categoryColors (fst (process_line parseFloat st line)))
        (line_label line).
Proof. reflexivity. Qed.

(** One line whose label names no member of [Object.prototype]: the state
    follows the labels seen, and the point is coloured by the position of
    its label among them. *)
Lemma process_line_follows : forall st seen line,
  colors_follow st seen ->
  ~ In (line_label line) ObjectPrototype ->
  colors_follow (fst (process_line parseFloat st line))
                (set_add seen (line_label line)) /\
  exists k,
    index_of (line_label line) (set_add seen (line_label line)) = Some k /\
    color (snd (process_line parseFloat st line)) = Val (palette_at k).
Proof.
  intros st seen line [Hidx Hown] Hproto.
  rewrite process_line_color, process_line_state.
  set (l := line_label line) in *.
  rewrite (@get_not_inherited _ (categoryColors st) l Hproto).
  unfold set_add. rewrite index_of_mem. rewrite (Hown l).
  destruct (index_of l seen) as [k|] eqn:Hk; simpl.
  - rewrite palette_at_truthy. simpl. split.
    + split; assumption.
    + exists k. split; [exact Hk |].
      rewrite (@get_not_inherited _ (categoryColors st) l Hproto), (Hown l), Hk.
      reflexivity.
  - split.
    + split.
      * simpl. rewrite Hidx, length_app. simpl. lia.
      * intro l'. simpl.
        destruct (jsstr_eq_dec l' l) as [E|E].
        -- subst l'. rewrite own_put_same, (@index_of_app_new l l seen Hk).
           rewrite str_eqb_refl, Hidx. reflexivity.
        -- rewrite (@own_put_other _ (categoryColors st) l' l _ E), (Hown l').
           destruct (index_of l' seen) as [j|] eqn:Hj.
           ++ rewrite (@index_of_app_found l' seen [l] j Hj). reflexivity.
           ++ rewrite (@index_of_app_new l' l seen Hj).
              apply str_eqb_neq in E. rewrite E. reflexivity.
    + exists (List.length seen). split.
      * rewrite (@index_of_app_new l l seen Hk), str_eqb_refl. reflexivity.
      * simpl. rewrite (@get_not_inherited _ _ l Hproto), own_put_same, Hidx.
        reflexivity.
Qed.

Lemma process_lines_labels : forall lines st,
  map label (process_lines parseFloat st lines) = map line_label lines.
Proof.
  induction lines as [|line rest IH]; intro st; cbn [process_lines].
  - reflexivity.
  - pose proof (process_line_label st line) as Hl.
    destruct (process_line parseFloat st line) as [st' p].
    simpl in *. rewrite Hl, IH. reflexivity.
Qed.

Lemma process_lines_follow : forall lines st seen,
  colors_follow st seen ->
  (forall line, In line lines -> ~ In (line_label line) ObjectPrototype) ->
  forall p, In p (process_lines parseFloat st lines) ->
    exists k,
      index_of (label p) (fold_left set_add (map line_label lines) seen)
      = Some k /\
      color p = Val (palette_at k).
Proof.
  induction lines as [|line rest IH]; intros st seen Hst Hproto p Hp;
    cbn [process_lines] in Hp.
  - contradiction.
  - pose proof (@process_line_follows st seen line Hst
                  (Hproto line (or_introl eq_refl))) as [Hst' (k & Hk & Hc)].
    pose proof (process_line_label st line) as Hl.
    destruct (process_line parseFloat st line) as [st' q].
    simpl in Hst', Hc, Hl, Hp. simpl.
    destruct Hp as [Hp|Hp].
    + subst q. exists k. split; [| exact Hc].
      rewrite Hl. apply index_of_set_add_fold. exact Hk.
    + apply (IH st' _ Hst'); [| exact Hp].
      intros line' Hin. apply Hproto. right. exact Hin.
Qed.

(** X3.  When no label of the ingested points names a member of
    [Object.prototype], the colour [processCSV] stored in each point is
    the colour of the default style [handleDataLoaded] gives the point's
    category. *)
Theorem point_colors_agree_without_inherited_labels :
  forall (text : jsstr) (prev : VisualizationState),
    (forall p, In p (processCSV parseFloat text) ->
               ~ In (label p) ObjectPrototype) ->
    forall p, In p (processCSV parseFloat text) ->
      exists c,
        color p = Val c /\
        styles_get
          (categoryStyles (handleDataLoaded (processCSV parseFloat text) prev))
          (label p)
        = Val (mkStyle c circle true).
Proof.
  intros text prev Hproto p Hp. unfold processCSV in *.
  set (lines := csv_lines text) in *.
  assert (Hlines : forall line, In line lines ->
                                ~ In (line_label line) ObjectPrototype).
  { intros line Hin Hbad.
    apply (in_map line_label) in Hin.
    rewrite <- (process_lines_labels lines csv_init) in Hin.
    apply in_map_iff in Hin. destruct Hin as (q & Hq & Hqin).
    apply (Hproto q Hqin). rewrite Hq. exact Hbad. }
  assert (Hinit : colors_follow csv_init []).
  { split; [reflexivity | intro l; reflexivity]. }
  destruct (@process_lines_follow lines csv_init [] Hinit Hlines p Hp)
    as (k & Hk & Hc).
  exists (palette_at k). split; [exact Hc |].
  cbn [handleDataLoaded categoryStyles].
  rewrite process_lines_labels.
  fold (array_from_set (map line_label lines)) in Hk.
  set (cats := array_from_set (map line_label lines)) in *.
  assert (Hnd : NoDup cats).
  { unfold cats. rewrite array_from_set_first_occurrences.
    apply first_occurrences_NoDup. }
  pose proof (default_styles_lookup cats 0 styles_empty Hnd) as Hmap.
  apply index_of_nth_error in Hk.
  pose proof (map_nth_error (styles_get (default_styles cats 0 styles_empty))
                _ _ Hk) as Hget.
  rewrite Hmap in Hget.
  assert (Hlt : k < List.length cats).
  { apply nth_error_Some. rewrite Hk. discriminate. }
  rewrite (map_nth_error _ _ (seq 0 (List.length cats)) (d := k)) in Hget.
  - inversion Hget as [Hg]. reflexivity.
  - rewrite nth_error_nth' with (d := 0) by (rewrite length_seq; exact Hlt).
    rewrite seq_nth by exact Hlt. reflexivity.
Qed.

End ColourAgreement.

Lemma point_colors_agree_without_inherited_labels_witness :
  exists c,
    color (mkPoint 1%float 1%float 1%float (lit "B") (lit "second")
                   (Val (palette_at 1))) = Val c /\
    styles_get
      (categoryStyles
         (handleDataLoaded (processCSV parseFloat_unsigned plain_csv)
                           initial_state))
      (lit "B")
    = Val (mkStyle c circle true).
Proof.
  apply (@point_colors_agree_without_inherited_labels
           parseFloat_unsigned plain_csv initial_state)
    with (p := mkPoint 1%float 1%float 1%float (lit "B") (lit "second")
                       (Val (palette_at 1))).
  - intros p Hp. vm_compute in Hp.
    destruct Hp as [H|[H|[H|[]]]]; subst p; vm_compute;
      intuition discriminate.
  - vm_compute. right. left. reflexivity.
Defined.

(* ================================================================== *)
(** * Grouping by category and the order of the render batches *)
(* ================================================================== *)

Lemma group_points_spec : forall pts groups,
  (forall p, In p pts -> ~ In (label p) ObjectPrototype) ->
  exists g,
    group_points groups pts = Ok g /\
    map fst g = fold_left set_add (map label pts) (map fst groups) /\
    forall l,
      own g l = match own groups l with
                | Some a => Some (a ++ with_label l pts)
                | None => if mem_str l (map label pts)
                          then Some (with_label l pts) else None
                end.
Proof.
  induction pts as [|p rest IH]; intros groups Hproto.
  - exists groups. simpl. split; [reflexivity | split; [reflexivity |]].
    intro l. destruct (own groups l); [rewrite app_nil_r |]; reflexivity.
  - assert (Hp : ~ In (label p) ObjectPrototype)
      by (apply Hproto; left; reflexivity).
    assert (Hrest : forall q, In q rest -> ~ In (label q) ObjectPrototype)
      by (intros q Hq; apply Hproto; right; exact Hq).
    cbn [group_points].
    rewrite (get_not_inherited _ groups (label p) Hp).
    destruct (own groups (label p)) as [a|] eqn:Ho.
    + rewrite (get_not_inherited _ groups (label p) Hp), Ho.
      destruct (IH (put groups (label p) (a ++ [p])) Hrest)
        as (g & Hg & Hkeys & Hown).
      exists g. split; [exact Hg | split].
      * rewrite Hkeys, keys_put. reflexivity.
      * intro l. rewrite Hown. unfold with_label. simpl.
        destruct (jsstr_eq_dec l (label p)) as [E|E].
        -- subst l. rewrite own_put_same, Ho, str_eqb_refl.
           rewrite <- app_assoc. reflexivity.
        -- rewrite (own_put_other _ groups l (label p) _ E).
           assert (E' : str_eqb (label p) l = false)
             by (apply str_eqb_neq; congruence).
           assert (E'' : str_eqb l (label p) = false)
             by (apply str_eqb_neq; exact E).
           rewrite E'. unfold mem_str. simpl. rewrite E''. reflexivity.
    + rewrite (get_not_inherited _ _ (label p) Hp), own_put_same.
      destruct (IH (put (put groups (label p) []) (label p) ([] ++ [p]))
                   Hrest) as (g & Hg & Hkeys & Hown).
      exists g. split; [exact Hg | split].
      * rewrite Hkeys, !keys_put, set_add_idem. reflexivity.
      * intro l. rewrite Hown. unfold with_label. simpl.
        destruct (jsstr_eq_dec l (label p)) as [E|E].
        -- subst l. rewrite own_put_same, Ho, str_eqb_refl.
           reflexivity.
        -- rewrite !(own_put_other _ _ l (label p) _ E).
           assert (E' : str_eqb (label p) l = false)
             by (apply str_eqb_neq; congruence).
           assert (E'' : str_eqb l (label p) = false)
             by (apply str_eqb_neq; exact E).
           rewrite E'. unfold mem_str. simpl. rewrite E''. reflexivity.
Qed.

(** X6.  When no label names a member of [Object.prototype], the grouping
    succeeds, its groups were created in the order of first occurrence of
    the labels, and the group of a label holds exactly the points with
    that label, in input order (so every point is in the group of its
    label and in no other).  When moreover no label is an array index,
    [Object.keys] enumerates the groups in that same order. *)
Theorem pointsByCategory_groups_by_label :
  forall pts : list DataPoint,
    (forall p, In p pts -> ~ In (label p) ObjectPrototype) ->
    exists groups,
      pointsByCategory pts = Ok groups /\
      map fst groups = first_occurrences (map label pts) /\
      (forall l, own groups l
                 = if mem_str l (map label pts)
                   then Some (with_label l pts) else None) /\
      ((forall p, In p pts -> array_index (label p) = None) ->
       keys groups = first_occurrences (map label pts)).
Proof.
  intros pts Hproto.
  destruct (group_points_spec pts empty Hproto) as (g & Hg & Hkeys & Hown).
  exists g. split; [exact Hg |].
  assert (Hk : map fst g = first_occurrences (map label pts)).
  { rewrite Hkeys. simpl. apply array_from_set_first_occurrences. }
  split; [exact Hk | split].
  - intro l. rewrite Hown. reflexivity.
  - intro Hidx. unfold keys. rewrite entries_without_index_keys; [exact Hk |].
    intros k Hin. rewrite Hk in Hin.
    apply (proj1 (first_occurrences_In _ _)) in Hin.
    apply in_map_iff in Hin. destruct Hin as (p & Hl & Hp).
    rewrite <- Hl. apply Hidx. exact Hp.
Qed.

Lemma pointsByCategory_groups_by_label_witness :
  exists groups,
    pointsByCategory [near_point; far_point] = Ok groups /\
    map fst groups = first_occurrences (map label [near_point; far_point]) /\
    (forall l, own groups l
               = if mem_str l (map label [near_point; far_point])
                 then Some (with_label l [near_point; far_point]) else None) /\
    ((forall p, In p [near_point; far_point] ->
                array_index (label p) = None) ->
     keys groups = first_occurrences (map label [near_point; far_point])).
Proof.
  apply (pointsByCategory_groups_by_label [near_point; far_point]).
  intros p [H|[H|[]]]; subst p; vm_compute; intuition discriminate.
Defined.

Lemma set_add_In : forall s l k, In k (set_add s l) <-> In k s \/ k = l.
Proof.
  intros s l k. unfold set_add. destruct (mem_str l s) eqn:E.
  - apply mem_str_In in E. split; [auto |]. intros [H|H]; [exact H |].
    subst k. exact E.
  - rewrite in_app_iff. simpl. intuition.
Qed.

Lemma group_points_throws : forall pts groups,
  (forall k, In k (map fst groups) -> ~ In k ObjectPrototype) ->
  (exists p, In p pts /\ In (label p) ObjectPrototype) ->
  group_points groups pts = Throw TypeError.
Proof.
  induction pts as [|p rest IH]; intros groups Hkeys (q & Hq & Hbad).
  - contradiction.
  - cbn [group_points].
    destruct (mem_str (label p) ObjectPrototype) eqn:Hm.
    + assert (Ho : own groups (label p) = None).
      { pose proof (mem_keys_own _ groups (label p)) as Hk.
        destruct (own groups (label p)); [exfalso | reflexivity].
        apply mem_str_In in Hk. apply mem_str_In in Hm.
        exact (Hkeys _ Hk Hm). }
      unfold get. rewrite Ho, Hm. rewrite Ho. reflexivity.
    + apply mem_str_not_In in Hm.
      assert (Hrest : exists p', In p' rest /\ In (label p') ObjectPrototype).
      { destruct Hq as [Hq|Hq]; [subst q; contradiction |].
        exists q. split; assumption. }
      rewrite (get_not_inherited _ groups (label p) Hm).
      destruct (own groups (label p)) as [a|] eqn:Ho.
      * rewrite (get_not_inherited _ groups (label p) Hm), Ho.
        apply IH; [| exact Hrest].
        intros k Hk. rewrite keys_put in Hk. apply set_add_In in Hk.
        destruct Hk as [Hk|Hk]; [apply Hkeys; exact Hk | subst k; exact Hm].
      * rewrite (get_not_inherited _ _ (label p) Hm), own_put_same.
        apply IH; [| exact Hrest].
        intros k Hk. rewrite !keys_put, set_add_idem in Hk.
        apply set_add_In in Hk.
        destruct Hk as [Hk|Hk]; [apply Hkeys; exact Hk | subst k; exact Hm].
Qed.

(** X7.  The grouping throws exactly when a label names a member of
    [Object.prototype]. *)
Theorem pointsByCategory_throws_on_inherited_labels :
  forall pts : list DataPoint,
    pointsByCategory pts = Throw TypeError <->
    exists p, In p pts /\ In (label p) ObjectPrototype.
Proof.
  intro pts. split.
  - intro Hthrow.
    destruct (existsb (fun p => mem_str (label p) ObjectPrototype) pts) eqn:E.
    + apply existsb_exists in E. destruct E as (p & Hp & Hm).
      exists p. split; [exact Hp | apply mem_str_In; exact Hm].
    + exfalso.
      assert (Hproto : forall p, In p pts -> ~ In (label p) ObjectPrototype).
      { intros p Hp Hbad.
        assert (existsb (fun p => mem_str (label p) ObjectPrototype) pts = true).
        { apply existsb_exists. exists p. split; [exact Hp |].
          apply mem_str_In. exact Hbad. }
        congruence. }
      destruct (group_points_spec pts empty Hproto) as (g & Hg & _).
      unfold pointsByCategory in Hthrow. rewrite Hg in Hthrow. discriminate.
  - intro Hbad. apply group_points_throws; [| exact Hbad].
    intros k [].
Qed.

(** C9, on the rows [0,0,0,2] and [5,5,5,1].  The labels occur in the order
    2, 1 and [categories] lists them so, but the render batches are built
    from [Object.entries(pointsByCategory)], which enumerates the keys that
    are array indices first and in ascending order: 1, 2.  And on the rows
    of [inherited_label_csv] the grouping throws a [TypeError], so the
    points end up in no group at all. *)
Theorem batches_enumerate_numeric_labels_ascending :
  forall parseFloat : jsstr -> float,
    let pts := processCSV parseFloat numeric_label_csv in
    map label pts = [lit "2"; lit "1"] /\
    categories (handleDataLoaded pts initial_state) = [lit "2"; lit "1"] /\
    (exists groups,
        pointsByCategory pts = Ok groups /\
        keys groups = [lit "1"; lit "2"]) /\
    pointsByCategory (processCSV parseFloat inherited_label_csv)
    = Throw TypeError.
Proof.
  intro parseFloat. cbv zeta. split; [| split; [| split]].
  - vm_compute. reflexivity.
  - vm_compute. reflexivity.
  - eexists. split.
    + cbv. reflexivity.
    + vm_compute. reflexivity.
  - vm_compute. reflexivity.
Qed.

(* ================================================================== *)
(** * Marker textures *)
(* ================================================================== *)

(** C2 as stated fails: two category batches with the same shape rasterize
    two canvases, and so does one batch whose shape goes from circle to
    square and back. *)
Lemma same_shape_is_rasterized_again :
  (exists t1 t2,
      mount_textures [circle; circle] 0 = ([t1; t2], 2) /\
      texture_id t1 <> texture_id t2) /\
  (exists t1 t2 t3,
      render_shapes None [circle; square; circle] 0 = ([t1; t2; t3], 3) /\
      texture_id t1 <> texture_id t3).
Proof.
  split.
  - do 2 eexists. split; [reflexivity | simpl; discriminate].
  - do 3 eexists. split; [reflexivity | simpl; discriminate].
Qed.

Lemma shape_eqb_refl : forall s, shape_eqb s s = true.
Proof. destruct s; reflexivity. Qed.

(** C2, amended.  Every call of [createShapeTexture] makes a new 64 x 64
    canvas, and what it draws depends on the shape only; a category batch
    keeps the texture of its current shape, so rendering it again with the
    same shape returns that texture and creates nothing. *)
Theorem texture_memoized_per_batch_on_current_shape :
  forall (cell : memo_cell) (s : PointShape) (created created2 : nat),
    let t := fst (createShapeTexture s created) in
    texture_id t = created /\
    snd (createShapeTexture s created) = S created /\
    canvas_width t = 64 /\ canvas_height t = 64 /\
    drawn t = drawn (fst (createShapeTexture s created2)) /\
    (let '(t1, cell1, created1) := useMemo_texture cell s created in
     useMemo_texture cell1 s created1 = (t1, cell1, created1)).
Proof.
  intros cell s created created2. cbv zeta.
  repeat split.
  unfold useMemo_texture.
  destruct cell as [[s0 t0]|].
  - destruct (shape_eqb s0 s) eqn:E.
    + rewrite E. reflexivity.
    + simpl. rewrite shape_eqb_refl. reflexivity.
  - simpl. rewrite shape_eqb_refl. reflexivity.
Qed.

(* ================================================================== *)
(** * Picking within one batch *)
(* ================================================================== *)

Section Picking.

Variable ray : Ray.

Lemma hits_from_sound : forall pts i h,
  In h (hits_from ray i pts) ->
  exists p, nth_error pts (index h - i) = Some p /\ i <= index h /\
            ray p = Some (distance h).
Proof.
  induction pts as [|q rest IH]; intros i h Hin; simpl in Hin.
  - contradiction.
  - destruct (ray q) as [d|] eqn:Hq.
    + destruct Hin as [Hh|Hin].
      * subst h. simpl. exists q. rewrite Nat.sub_diag. auto.
      * destruct (IH _ _ Hin) as (p & Hn & Hle & Hr).
        exists p. split; [| split; [lia | exact Hr]].
        replace (index h - i) with (S (index h - S i)) by lia. exact Hn.
    + destruct (IH _ _ Hin) as (p & Hn & Hle & Hr).
      exists p. split; [| split; [lia | exact Hr]].
      replace (index h - i) with (S (index h - S i)) by lia. exact Hn.
Qed.

Lemma hits_from_complete : forall pts i p d,
  In p pts -> ray p = Some d ->
  exists h, In h (hits_from ray i pts) /\ distance h = d.
Proof.
  induction pts as [|q rest IH]; intros i p d Hin Hr; simpl in *.
  - contradiction.
  - destruct Hin as [Hq|Hin].
    + subst q. rewrite Hr. exists (mkHit d i). simpl. auto.
    + destruct (IH (S i) _ _ Hin Hr) as (h & Hh & Hd).
      exists h. split; [| exact Hd].
      destruct (ray q); [right |]; exact Hh.
Qed.

Lemma insert_hit_In : forall h l h',
  In h' (insert_hit h l) <-> h' = h \/ In h' l.
Proof.
  induction l as [|a rest IH]; intro h'; simpl.
  - intuition.
  - destruct (Qle_bool (distance h) (distance a)); simpl.
    + intuition.
    + rewrite IH. intuition.
Qed.

Lemma sort_hits_In : forall l h, In h (sort_hits l) <-> In h l.
Proof.
  induction l as [|a rest IH]; intro h; simpl.
  - reflexivity.
  - rewrite insert_hit_In, IH. intuition.
Qed.

Lemma insert_hit_head_closest : forall h l,
  head_closest l -> head_closest (insert_hit h l).
Proof.
  intros h [|a rest] Hl; simpl.
  - intros b [Hb|[]]. subst. apply Qle_refl.
  - destruct (Qle_bool (distance h) (distance a)) eqn:E.
    + apply Qle_bool_iff in E.
      intros b [Hb|Hb].
      * subst. apply Qle_refl.
      * apply Qle_trans with (distance a); [exact E | apply Hl; exact Hb].
    + assert (Hlt : (distance a < distance h)%Q).
      { apply Qnot_le_lt. intro H. apply Qle_bool_iff in H. congruence. }
      intros b [Hb|Hb].
      * subst. apply Qle_refl.
      * apply insert_hit_In in Hb. destruct Hb as [Hb|Hb].
        -- subst. apply Qlt_le_weak. exact Hlt.
        -- apply Hl. right. exact Hb.
Qed.

Lemma sort_hits_head_closest : forall l, head_closest (sort_hits l).
Proof.
  induction l as [|a rest IH]; simpl.
  - exact I.
  - apply insert_hit_head_closest. exact IH.
Qed.

(** An invisible batch makes no call. *)
Lemma pick_invisible : forall pts style,
  visible style = false -> pick ray pts style = None.
Proof. intros pts style H. unfold pick. rewrite H. reflexivity. Qed.

(** A visible batch the ray misses calls [onHover(null)]. *)
Lemma pick_miss : forall pts style,
  visible style = true ->
  (forall q, In q pts -> ray q = None) ->
  pick ray pts style = Some None.
Proof.
  intros pts style Hv Hmiss. unfold pick. rewrite Hv. simpl.
  destruct (intersectObject ray pts) as [|h rest] eqn:E; [reflexivity |].
  exfalso.
  assert (Hin : In h (hits_from ray 0 pts)).
  { apply sort_hits_In. unfold intersectObject in E. rewrite E. left.
    reflexivity. }
  destruct (@hits_from_sound pts 0 h Hin) as (p & Hn & _ & Hr).
  apply nth_error_In in Hn. rewrite (Hmiss _ Hn) in Hr. discriminate.
Qed.

(** A visible batch the ray hits calls [onHover] with one of its points
    that is hit, and none of its points is hit closer. *)
Lemma pick_hit : forall pts style q dq,
  visible style = true ->
  In q pts -> ray q = Some dq ->
  exists p d,
    pick ray pts style = Some (Some p) /\ In p pts /\ ray p = Some d /\
    forall q' d', In q' pts -> ray q' = Some d' -> (d <= d')%Q.
Proof.
  intros pts style q dq Hv Hq Hr. unfold pick. rewrite Hv. simpl.
  destruct (@hits_from_complete pts 0 q dq Hq Hr) as (hq & Hhq & _).
  pose proof (sort_hits_head_closest (hits_from ray 0 pts)) as Hmin.
  unfold intersectObject.
  destruct (sort_hits (hits_from ray 0 pts)) as [|h rest] eqn:E.
  - apply sort_hits_In in Hhq. rewrite E in Hhq. contradiction.
  - assert (Hin : In h (hits_from ray 0 pts)).
    { apply sort_hits_In. rewrite E. left. reflexivity. }
    destruct (@hits_from_sound pts 0 h Hin) as (p & Hn & _ & Hp).
    rewrite Nat.sub_0_r in Hn.
    exists p, (distance h). split; [| split; [| split]].
    + rewrite Hn. reflexivity.
    + apply nth_error_In in Hn. exact Hn.
    + exact Hp.
    + intros q' d' Hq' Hr'.
      destruct (@hits_from_complete pts 0 q' d' Hq' Hr') as (h' & Hh' & Hd').
      rewrite <- Hd'. unfold head_closest in Hmin. apply Hmin.
      rewrite <- E. apply sort_hits_In. exact Hh'.
Qed.

End Picking.

(* ================================================================== *)
(** * Hover across the batches of a frame *)
(* ================================================================== *)

Lemma hoveredPoint_clearTimeout : forall id v,
  hoveredPoint (clearTimeout id v) = hoveredPoint v.
Proof. reflexivity. Qed.

Lemma handleHover_hit : forall p v,
  hoveredPoint (handleHover (Some p) v) = Some p.
Proof. reflexivity. Qed.

Lemma handleHover_miss : forall v,
  hoveredPoint (handleHover None v) = hoveredPoint v.
Proof.
  intro v. unfold handleHover.
  destruct (hoverTimeout v) as [id|]; [destruct (id =? 0) |]; reflexivity.
Qed.

Lemma hover_after_reports : forall rs v,
  hoveredPoint (fold_left (fun w r => handleHover r w) rs v)
  = last_hit rs (hoveredPoint v).
Proof.
  unfold last_hit.
  induction rs as [|r rest IH]; intro v; simpl.
  - reflexivity.
  - rewrite IH. destruct r as [p|].
    + rewrite handleHover_hit. reflexivity.
    + rewrite handleHover_miss. reflexivity.
Qed.

Lemma last_hit_app : forall a b d,
  last_hit (a ++ b) d = last_hit b (last_hit a d).
Proof. intros a b d. unfold last_hit. apply fold_left_app. Qed.

Lemma last_hit_misses : forall rs d,
  (forall r, In r rs -> r = None) -> last_hit rs d = d.
Proof.
  unfold last_hit.
  induction rs as [|r rest IH]; intros d H; simpl.
  - reflexivity.
  - rewrite (H r (or_introl eq_refl)). apply IH.
    intros r' Hr'. apply H. right. exact Hr'.
Qed.

Lemma frame_reports_app : forall ray a b,
  frame_reports ray (a ++ b) = frame_reports ray a ++ frame_reports ray b.
Proof. intros ray a b. unfold frame_reports. apply flat_map_app. Qed.

Lemma frame_reports_cons : forall ray b rest,
  frame_reports ray (b :: rest)
  = match pick ray (fst b) (snd b) with Some r => [r] | None => [] end
    ++ frame_reports ray rest.
Proof. reflexivity. Qed.

Lemma frame_reports_no_hit : forall ray batches,
  (forall b r, In b batches -> visible (snd b) = true ->
               In r (fst b) -> ray r = None) ->
  forall r, In r (frame_reports ray batches) -> r = None.
Proof.
  intros ray batches. induction batches as [|b rest IH]; intros H r Hr.
  - contradiction.
  - rewrite frame_reports_cons in Hr. apply in_app_or in Hr.
    destruct Hr as [Hr|Hr].
    + destruct (visible (snd b)) eqn:Hv.
      * rewrite (@pick_miss ray (fst b) (snd b) Hv) in Hr.
        -- destruct Hr as [Hr|[]]. symmetry. exact Hr.
        -- intros q Hq. apply (H b q (or_introl eq_refl) Hv Hq).
      * rewrite (@pick_invisible ray (fst b) (snd b) Hv) in Hr.
        contradiction.
    + apply IH; [| exact Hr].
      intros b' r' Hb'. apply H. right. exact Hb'.
Qed.

(** C1 as stated fails.  The pointer ray hits the point of category [A] at
    distance 1 and the point of category [B] at distance 5, both categories
    visible; the batches are the ones [DataVisualizer] builds for these two
    points.  After the frame the hover point is [B]'s, the farther one. *)
Lemma hover_is_not_the_globally_closest :
  hoveredPoint (run_frame through_both two_batches initial_visualizer)
  = Some far_point /\
  through_both near_point = Some (1 # 1)%Q /\
  through_both far_point = Some (5 # 1)%Q /\
  (1 # 1 < 5 # 1)%Q /\
  near_point <> far_point /\
  (exists groups,
      pointsByCategory [near_point; far_point] = Ok groups /\
      category_props groups
        (categoryStyles
           (handleDataLoaded [near_point; far_point] initial_state))
      = map (fun b => (fst b, Val (snd b))) two_batches).
Proof.
  repeat split.
  - unfold near_point, far_point. intro H. inversion H.
  - eexists. split; [cbv; reflexivity | vm_compute; reflexivity].
Qed.

(** C1, amended.  After a frame in which the ray hits a visible batch and
    no visible batch after it, the hover point is a point of that batch
    that the ray hits, and no point of that batch is hit closer: the
    closest hit of the last batch hit, whatever the batches before it
    reported. *)
Theorem hover_is_closest_hit_of_last_batch_hit :
  forall (ray : Ray) (pre : list (list DataPoint * CategoryStyle))
         (pts : list DataPoint) (style : CategoryStyle)
         (post : list (list DataPoint * CategoryStyle))
         (v : Visualizer) (q : DataPoint) (dq : Q),
    visible style = true ->
    In q pts -> ray q = Some dq ->
    (forall b r, In b post -> visible (snd b) = true ->
                 In r (fst b) -> ray r = None) ->
    exists p d,
      hoveredPoint (run_frame ray (pre ++ (pts, style) :: post) v) = Some p /\
      In p pts /\ ray p = Some d /\
      (forall q' d', In q' pts -> ray q' = Some d' -> (d <= d')%Q).
Proof.
  intros ray pre pts style post v q dq Hv Hq Hr Hpost.
  destruct (@pick_hit ray pts style q dq Hv Hq Hr) as (p & d & Hp & Hin & Hd & Hmin).
  exists p, d. split; [| split; [exact Hin | split; [exact Hd | exact Hmin]]].
  unfold run_frame. rewrite hover_after_reports.
  rewrite frame_reports_app, frame_reports_cons. simpl fst. simpl snd.
  rewrite Hp. rewrite !last_hit_app.
  rewrite last_hit_misses.
  - reflexivity.
  - apply frame_reports_no_hit. exact Hpost.
Qed.

Lemma hover_is_closest_hit_of_last_batch_hit_witness :
  exists p d,
    hoveredPoint (run_frame through_both two_batches initial_visualizer)
    = Some p /\
    In p [far_point] /\ through_both p = Some d /\
    (forall q' d', In q' [far_point] -> through_both q' = Some d' ->
                   (d <= d')%Q).
Proof.
  apply (@hover_is_closest_hit_of_last_batch_hit through_both
           [([near_point], mkStyle (palette_at 0) circle true)]
           [far_point] (mkStyle (palette_at 1) circle true) []
           initial_visualizer far_point (5 # 1)%Q).
  - reflexivity.
  - simpl. left. reflexivity.
  - reflexivity.
  - intros b r Hb. simpl in Hb. contradiction.
Defined.

(* ================================================================== *)
(** * Invisible categories *)
(* ================================================================== *)


(* ================================================================== *)
(** * The hover timer *)
(* ================================================================== *)

Lemma clock_run_callbacks : forall fired v,
  clock (fold_left (fun w t => run_callback (action t) w) fired v) = clock v.
Proof.
  induction fired as [|t rest IH]; intro v; simpl.
  - reflexivity.
  - rewrite IH. destruct (action t); reflexivity.
Qed.

Lemma clock_elapse : forall d v, clock (elapse d v) = clock v + d.
Proof. intros d v. unfold elapse. rewrite clock_run_callbacks. reflexivity. Qed.

Lemma clock_handleHover : forall r v, clock (handleHover r v) = clock v.
Proof.
  intros r v. unfold handleHover.
  destruct (hoverTimeout v) as [id|]; [destruct (id =? 0) |];
    destruct r; reflexivity.
Qed.

Lemma run_callbacks_frame : forall fired w,
  let w' := fold_left (fun u t => run_callback (action t) u) fired w in
  timers w' = timers w /\ hoverTimeout w' = hoverTimeout w /\
  next_timer_id w' = next_timer_id w /\
  hoveredPoint w' = if existsb is_clear fired then None else hoveredPoint w.
Proof.
  induction fired as [|t rest IH]; intro w; simpl.
  - auto.
  - destruct (IH (run_callback (action t) w)) as (Ht & Hh & Hn & Hp).
    rewrite Ht, Hh, Hn, Hp. unfold is_clear at 2.
    destruct (action t); simpl; repeat split; try reflexivity.
    destruct (existsb is_clear rest); reflexivity.
Qed.

Lemma hoveredPoint_elapse : forall d v,
  hoveredPoint (elapse d v)
  = if existsb is_clear (filter (is_due (clock v + d)) (timers v))
    then None else hoveredPoint v.
Proof.
  intros d v. unfold elapse.
  destruct (run_callbacks_frame (filter (is_due (clock v + d)) (timers v))
              (mkVis (hoveredPoint v) (selectedPoint v) (screenshotTrigger v)
                     (hoverTimeout v)
                     (filter (fun t => negb (is_due (clock v + d) t))
                             (timers v))
                     (next_timer_id v) (clock v + d)))
    as (_ & _ & _ & Hp).
  exact Hp.
Qed.

Lemma timers_elapse : forall d v,
  timers (elapse d v)
  = filter (fun t => negb (is_due (clock v + d) t)) (timers v) /\
  hoverTimeout (elapse d v) = hoverTimeout v /\
  next_timer_id (elapse d v) = next_timer_id v.
Proof.
  intros d v. unfold elapse.
  destruct (run_callbacks_frame (filter (is_due (clock v + d)) (timers v))
              (mkVis (hoveredPoint v) (selectedPoint v) (screenshotTrigger v)
                     (hoverTimeout v)
                     (filter (fun t => negb (is_due (clock v + d) t))
                             (timers v))
                     (next_timer_id v) (clock v + d)))
    as (Ht & Hh & Hn & _).
  auto.
Qed.

Lemma owned_initially : clear_timers_owned initial_visualizer.
Proof. split; [simpl; lia | intros t []]. Qed.

Lemma owned_elapse : forall d v,
  clear_timers_owned v -> clear_timers_owned (elapse d v).
Proof.
  intros d v [Hn Hown]. destruct (timers_elapse d v) as (Ht & Hh & Hi).
  split.
  - rewrite Hi. exact Hn.
  - intros t Hin Hc. rewrite Ht in Hin. apply filter_In in Hin.
    rewrite Hh. apply Hown; [apply Hin | exact Hc].
Qed.

(** After [clearTimeout(hoverTimeout.current)] no clear timer is left. *)
Lemma no_clear_timer_after_cancel : forall v t,
  clear_timers_owned v ->
  In t (timers (match hoverTimeout v with
                | Some id => if id =? 0 then v else clearTimeout id v
                | None => v
                end)) ->
  is_clear t = false.
Proof.
  intros v t [_ Hown] Hin.
  destruct (is_clear t) eqn:Hc; [exfalso | reflexivity].
  destruct (hoverTimeout v) as [id|] eqn:Hto.
  - destruct (id =? 0) eqn:Hz.
    + destruct (Hown t Hin Hc) as [Hid Hpos].
      apply Nat.eqb_eq in Hz. inversion Hid. lia.
    + simpl in Hin. apply filter_In in Hin. destruct Hin as [Hin Hne].
      destruct (Hown t Hin Hc) as [Hid _]. inversion Hid as [Hid'].
      rewrite Hid', Nat.eqb_refl in Hne. discriminate.
  - destruct (Hown t Hin Hc) as [Hid _]. discriminate.
Qed.

Lemma next_id_after_cancel : forall v,
  next_timer_id (match hoverTimeout v with
                 | Some id => if id =? 0 then v else clearTimeout id v
                 | None => v
                 end) = next_timer_id v.
Proof.
  intro v. destruct (hoverTimeout v) as [id|]; [destruct (id =? 0) |];
    reflexivity.
Qed.

Lemma clock_after_cancel : forall v,
  clock (match hoverTimeout v with
         | Some id => if id =? 0 then v else clearTimeout id v
         | None => v
         end) = clock v.
Proof.
  intro v. destruct (hoverTimeout v) as [id|]; [destruct (id =? 0) |];
    reflexivity.
Qed.

(** Every report, hit or miss, cancels the pending clear timer; a miss
    arms a new one, due 50 ms later. *)
Lemma just_reported_handleHover : forall r v,
  clear_timers_owned v -> just_reported (handleHover r v).
Proof.
  intros r v Hv.
  pose proof (fun t => no_clear_timer_after_cancel v t Hv) as Hnone.
  pose proof (next_id_after_cancel v) as Hnext.
  pose proof (clock_after_cancel v) as Hclock.
  destruct Hv as [Hn _].
  unfold handleHover.
  set (v1 := match hoverTimeout v with
             | Some id => if id =? 0 then v else clearTimeout id v
             | None => v
             end) in *.
  destruct r as [p|]; simpl.
  - split; [split |]; simpl.
    + lia.
    + intros t Hin Hc. rewrite (Hnone t Hin) in Hc. discriminate.
    + intros t Hin Hc. rewrite (Hnone t Hin) in Hc. discriminate.
  - split; [split |]; simpl.
    + lia.
    + intros t Hin Hc. apply in_app_or in Hin. destruct Hin as [Hin|Hin].
      * rewrite (Hnone t Hin) in Hc. discriminate.
      * destruct Hin as [Ht|[]]. subst t. simpl. split; [reflexivity | lia].
    + intros t Hin Hc. apply in_app_or in Hin. destruct Hin as [Hin|Hin].
      * rewrite (Hnone t Hin) in Hc. discriminate.
      * destruct Hin as [Ht|[]]. subst t. simpl. reflexivity.
Qed.

Lemma owned_handleHover : forall r v,
  clear_timers_owned v -> clear_timers_owned (handleHover r v).
Proof. intros r v Hv. apply (just_reported_handleHover r v Hv). Qed.

Lemma owned_takeScreenshot : forall v,
  clear_timers_owned v -> clear_timers_owned (fst (takeScreenshot v)).
Proof.
  intros v [Hn Hown]. unfold takeScreenshot. simpl. split; simpl.
  - lia.
  - intros t Hin Hc. apply in_app_or in Hin. destruct Hin as [Hin|Hin].
    + apply Hown; assumption.
    + destruct Hin as [Ht|[]]. subst t. discriminate.
Qed.

Lemma owned_setSelectedPoint : forall p v,
  clear_timers_owned v -> clear_timers_owned (setSelectedPoint p v).
Proof. intros p v Hv. exact Hv. Qed.

(** Less than 50 ms after a report no clear timer comes due. *)
Lemma hover_kept_within_window : forall d v,
  just_reported v -> d < 50 -> hoveredPoint (elapse d v) = hoveredPoint v.
Proof.
  intros d v [_ Hdue] Hd. rewrite hoveredPoint_elapse.
  destruct (existsb is_clear (filter (is_due (clock v + d)) (timers v)))
    eqn:E; [exfalso | reflexivity].
  apply existsb_exists in E. destruct E as (t & Hin & Hc).
  apply filter_In in Hin. destruct Hin as [Hin Hd'].
  unfold is_due in Hd'. apply Nat.leb_le in Hd'.
  rewrite (Hdue t Hin Hc) in Hd'. lia.
Qed.

Lemma hover_kept_by_reports : forall rs v,
  just_reported v -> hoveredPoint v <> None ->
  Forall (fun gr => fst gr < 50) rs ->
  hoveredPoint (reports_spaced rs v) <> None.
Proof.
  induction rs as [|[gap r] rest IH]; intros v Hv Hh Hgaps; simpl.
  - exact Hh.
  - inversion Hgaps as [|? ? Hgap Hrest]; subst. simpl in Hgap.
    apply IH; [| | exact Hrest].
    + apply just_reported_handleHover. apply owned_elapse. apply Hv.
    + destruct r as [p|].
      * rewrite handleHover_hit. discriminate.
      * rewrite handleHover_miss, (hover_kept_within_window gap v Hv Hgap).
        exact Hh.
Qed.

Lemma clock_reports_spaced : forall rs v,
  clock (reports_spaced rs v) = clock v + list_sum (map fst rs).
Proof.
  induction rs as [|[gap r] rest IH]; intro v; simpl.
  - lia.
  - rewrite IH, clock_handleHover, clock_elapse. lia.
Qed.

(** Misses that arrive less than 50 ms apart leave the hover point alone:
    each finds the clear timer of the one before still pending, cancels
    it and arms a new one. *)
Lemma hover_kept_by_misses : forall gap n v,
  gap < 50 -> just_reported v ->
  hoveredPoint (reports_spaced (repeat (gap, None) n) v) = hoveredPoint v.
Proof.
  intros gap n. induction n as [|n IH]; intros v Hgap Hv;
    cbn [repeat reports_spaced].
  - reflexivity.
  - rewrite IH; [| exact Hgap |].
    + rewrite handleHover_miss. apply hover_kept_within_window; assumption.
    + apply just_reported_handleHover. apply owned_elapse. apply Hv.
Qed.

(** C4, on a hit followed by misses at 60 frames per second.  Every miss
    cancels the pending clear timer and arms a new one, so the timer never
    fires: after any number [n] of such frames, [16 * n] ms after the hit,
    the hover point is still the point that was hit; it is not cleared 50
    ms after the first miss.  (Left alone for 50 ms after a single miss,
    the timer does fire and clears it.) *)
Theorem hover_survives_misses_every_frame :
  forall (p : DataPoint) (n : nat),
    let hit := handleHover (Some p) initial_visualizer in
    hoveredPoint (reports_spaced (repeat (16, None) n) hit) = Some p /\
    clock (reports_spaced (repeat (16, None) n) hit) = 16 * n /\
    hoveredPoint (elapse 50 (handleHover None hit)) = None.
Proof.
  intros p n. cbv zeta. split; [| split].
  - rewrite hover_kept_by_misses.
    + reflexivity.
    + lia.
    + apply just_reported_handleHover. exact owned_initially.
  - rewrite clock_reports_spaced. simpl.
    induction n as [|n IH]; simpl; [reflexivity | rewrite IH; lia].
  - reflexivity.
Qed.

(** X4.  From any state of the component, after a hit and then hover
    reports, hits or misses, each less than 50 ms after the one before,
    the hover point is not null: the clear timer a miss arms is cancelled
    by the next report before it fires. *)
Theorem hover_not_cleared_between_close_reports :
  forall (v : Visualizer) (p : DataPoint)
         (rs : list (nat * option DataPoint)),
    clear_timers_owned v ->
    Forall (fun gr => fst gr < 50) rs ->
    hoveredPoint (handleHover (Some p) v) = Some p /\
    (forall t, In t (timers (handleHover (Some p) v)) -> is_clear t = false) /\
    hoveredPoint (reports_spaced rs (handleHover (Some p) v)) <> None.
Proof.
  intros v p rs Hv Hgaps. split; [reflexivity | split].
  - intros t Hin. exact (no_clear_timer_after_cancel v t Hv Hin).
  - apply hover_kept_by_reports; [| | exact Hgaps].
    + apply just_reported_handleHover. exact Hv.
    + rewrite handleHover_hit. discriminate.
Qed.

Lemma hover_not_cleared_between_close_reports_witness :
  hoveredPoint (handleHover (Some near_point) initial_visualizer)
  = Some near_point /\
  (forall t, In t (timers (handleHover (Some near_point) initial_visualizer))
             -> is_clear t = false) /\
  hoveredPoint
    (reports_spaced [(16, None); (16, None); (16, Some far_point)]
                    (handleHover (Some near_point) initial_visualizer))
  <> None.
Proof.
  apply (@hover_not_cleared_between_close_reports initial_visualizer
           near_point [(16, None); (16, None); (16, Some far_point)]).
  - split; [simpl; lia | intros t []].
  - repeat constructor; simpl; lia.
Defined.

(** X5.  A miss arms the clear timer; when no further report arrives, the
    hover point stays as it was for the next 50 ms and is null from then
    on: one transition to null, 50 ms after the miss. *)
Theorem lone_miss_clears_hover_after_50ms :
  forall (v : Visualizer) (d : nat),
    clear_timers_owned v ->
    hoveredPoint (elapse d (handleHover None v))
    = if d <? 50 then hoveredPoint v else None.
Proof.
  intros v d Hv.
  pose proof (just_reported_handleHover None v Hv) as Hj.
  destruct (d <? 50) eqn:Hd.
  - apply Nat.ltb_lt in Hd.
    rewrite (hover_kept_within_window d _ Hj Hd). apply handleHover_miss.
  - apply Nat.ltb_ge in Hd. rewrite hoveredPoint_elapse.
    assert (E : existsb is_clear
                  (filter (is_due (clock (handleHover None v) + d))
                          (timers (handleHover None v))) = true).
    { apply existsb_exists.
      exists (mkTimer (next_timer_id v) (clock v + 50) clear_hover).
      split; [| reflexivity].
      apply filter_In. split.
      - unfold handleHover.
        rewrite <- (next_id_after_cancel v), <- (clock_after_cancel v).
        simpl. apply in_or_app. right. left. reflexivity.
      - unfold is_due. rewrite clock_handleHover. simpl.
        apply Nat.leb_le. lia. }
    rewrite E. reflexivity.
Qed.

Lemma lone_miss_clears_hover_after_50ms_witness :
  hoveredPoint
    (elapse 50 (handleHover None
                  (handleHover (Some near_point) initial_visualizer)))
  = if 50 <? 50
    then hoveredPoint (handleHover (Some near_point) initial_visualizer)
    else None.
Proof.
  apply (@lone_miss_clears_hover_after_50ms
           (handleHover (Some near_point) initial_visualizer) 50).
  apply owned_handleHover. split; [simpl; lia | intros t []].
Defined.

(* ================================================================== *)
(** * Overlays *)
(* ================================================================== *)

Lemma tooltip_shown : forall v p,
  In (hover_tooltip p) (tooltip v) <->
  hoveredPoint v = Some p /\ selectedPoint v = None /\
  screenshotTrigger v = false.
Proof.
  intros v p. unfold tooltip.
  destruct (hoveredPoint v) as [q|]; destruct (selectedPoint v) as [s|];
    destruct (screenshotTrigger v); simpl; split;
    try (intros [H|[]]; inversion H; subst; auto; fail);
    try (intros []; fail);
    try (intros (H1 & H2 & H3); discriminate).
  intros (H1 & _ & _). inversion H1. left. reflexivity.
Qed.

Lemma panel_has_no_tooltip : forall v p, ~ In (hover_tooltip p) (panel v).
Proof.
  intros v p. unfold panel.
  destruct (selectedPoint v); [destruct (negb (screenshotTrigger v))|];
    simpl; intros H; try destruct H as [H|H]; try discriminate H;
    try contradiction.
Qed.

(** C7.  The render output contains the hover tooltip of a point exactly
    when that point is the hover point, nothing is selected and the
    screenshot trigger is off; with the trigger on (which is how
    [takeScreenshot] leaves it) the output holds neither the tooltip nor the
    selection panel. *)
Theorem overlays_follow_hover_selection_and_capture : forall v p,
  (In (hover_tooltip p) (overlays v) <->
   hoveredPoint v = Some p /\ selectedPoint v = None /\
   screenshotTrigger v = false) /\
  overlays (setScreenshotTrigger true v) = [] /\
  overlays (fst (takeScreenshot v)) = [].
Proof.
  intros v p. split; [| split].
  - unfold overlays. rewrite in_app_iff. rewrite <- tooltip_shown. split.
    + intros [H|H]; [assumption | exfalso; exact (panel_has_no_tooltip _ _ H)].
    + intro H. left. assumption.
  - unfold overlays, tooltip, panel. simpl.
    destruct (hoveredPoint v); destruct (selectedPoint v); reflexivity.
  - unfold overlays, tooltip, panel, takeScreenshot. simpl.
    destruct (hoveredPoint v); destruct (selectedPoint v); reflexivity.
Qed.

(* ================================================================== *)
(** * Capture *)
(* ================================================================== *)



(* ================================================================== *)
(** * Enumeration order and lookups *)
(* ================================================================== *)

Lemma insert_index_perm : forall (V : Type) (e : N * (jsstr * V)) l,
  Permutation (insert_index e l) (e :: l).
Proof.
  intros V e l. induction l as [|e' rest IH]; simpl.
  - apply Permutation_refl.
  - destruct (fst e <? fst e')%N.
    + apply Permutation_refl.
    + apply Permutation_trans with (e' :: e :: rest).
      * apply perm_skip. exact IH.
      * apply perm_swap.
Qed.

(** [Object.entries] lists the own properties, each once. *)
Lemma entries_perm : forall (V : Type) (o : obj V),
  Permutation (entries o) o.
Proof.
  intros V o. unfold entries, index_props, string_props.
  induction o as [|kv rest IH]; simpl.
  - apply Permutation_refl.
  - destruct (array_index (fst kv)) as [n|].
    + apply Permutation_trans
        with (map snd ((n, kv) :: fold_right
                (fun kv0 acc => match array_index (fst kv0) with
                                | Some n0 => insert_index (n0, kv0) acc
                                | None => acc
                                end) [] rest)
              ++ filter (fun kv0 => match array_index (fst kv0) with
                                    | Some _ => false
                                    | None => true
                                    end) rest).
      * apply Permutation_app_tail. apply Permutation_map.
        apply insert_index_perm.
      * simpl. apply perm_skip. exact IH.
    + apply Permutation_sym. apply Permutation_cons_app.
      apply Permutation_sym. exact IH.
Qed.

Lemma own_In : forall (V : Type) (o : obj V) k v,
  NoDup (map fst o) -> (own o k = Some v <-> In (k, v) o).
Proof.
  intros V o k v. induction o as [|[k' v'] rest IH]; intro Hnd; simpl.
  - split; [discriminate | contradiction].
  - inversion Hnd as [|? ? Hnin Hnd']; subst.
    destruct (str_eqb k k') eqn:E.
    + apply str_eqb_eq in E. subst k'. split.
      * intro H. inversion H. left. reflexivity.
      * intros [H|H]; [inversion H; reflexivity |].
        exfalso. apply Hnin. apply (in_map fst) in H. exact H.
    + apply str_eqb_neq in E. rewrite (IH Hnd'). split.
      * intro H. right. exact H.
      * intros [H|H]; [inversion H; congruence | exact H].
Qed.

Lemma entries_NoDup : forall (V : Type) (o : obj V),
  NoDup (map fst o) -> NoDup (map fst (entries o)).
Proof.
  intros V o H.
  apply (Permutation_NoDup (l := map fst o)); [| exact H].
  apply Permutation_map. apply Permutation_sym. apply entries_perm.
Qed.

(** Copying an object property by property keeps what each key holds. *)
Lemma own_entries : forall (V : Type) (o : obj V) k,
  NoDup (map fst o) -> own (entries o) k = own o k.
Proof.
  intros V o k Hnd.
  pose proof (entries_NoDup V o Hnd) as Hnd'.
  destruct (own o k) as [v|] eqn:Ho.
  - apply (own_In V (entries o) k v Hnd').
    apply (Permutation_in (l := o)).
    + apply Permutation_sym. apply entries_perm.
    + apply (own_In V o k v Hnd). exact Ho.
  - destruct (own (entries o) k) as [v|] eqn:He; [| reflexivity].
    apply (own_In V (entries o) k v Hnd') in He.
    apply (Permutation_in (l' := o)) in He; [| apply entries_perm].
    apply (own_In V o k v Hnd) in He. congruence.
Qed.

Lemma set_add_NoDup : forall s l, NoDup s -> NoDup (set_add s l).
Proof.
  intros s l H. unfold set_add. destruct (mem_str l s) eqn:E.
  - exact H.
  - apply mem_str_not_In in E.
    apply (Permutation_NoDup (l := l :: s)).
    + apply Permutation_cons_append.
    + constructor; assumption.
Qed.

Lemma put_NoDup : forall (V : Type) (o : obj V) k v,
  NoDup (map fst o) -> NoDup (map fst (put o k v)).
Proof.
  intros V o k v H. rewrite keys_put. apply set_add_NoDup. exact H.
Qed.

Lemma styles_get_own : forall o k s,
  own (st_own o) k = Some s -> styles_get o k = Val s.
Proof. intros o k s H. unfold styles_get. rewrite H. reflexivity. Qed.


(* ================================================================== *)
(** * Style updates *)
(* ================================================================== *)

Lemma own_spread_with_same : forall o k s,
  own (st_own (spread_with o k s)) k = Some s.
Proof. intros o k s. unfold spread_with. simpl. apply own_put_same. Qed.

Lemma own_spread_with_other : forall o k k' s,
  NoDup (map fst (st_own o)) -> k <> k' ->
  own (st_own (spread_with o k' s)) k = own (st_own o) k.
Proof.
  intros o k k' s Hnd Hne. unfold spread_with. simpl.
  rewrite own_put_other by exact Hne. apply own_entries. exact Hnd.
Qed.

Lemma spread_with_NoDup : forall o k s,
  NoDup (map fst (st_own o)) ->
  NoDup (map fst (st_own (spread_with o k s))).
Proof.
  intros o k s H. unfold spread_with. simpl.
  apply put_NoDup. apply entries_NoDup. exact H.
Qed.

Lemma updateCategoryStyle_on_style : forall c u prev s,
  NoDup (map fst (st_own (categoryStyles prev))) ->
  styles_get (categoryStyles prev) c = Val s ->
  exists st,
    updateCategoryStyle c u prev = Some st /\
    own (st_own (categoryStyles st)) c = Some (apply_update s u) /\
    (forall k, k <> c ->
               own (st_own (categoryStyles st)) k
               = own (st_own (categoryStyles prev)) k) /\
    points st = points prev /\ categories st = categories prev /\
    showAxes st = showAxes prev /\
    NoDup (map fst (st_own (categoryStyles st))).
Proof.
  intros c u prev s Hnd Hget. unfold updateCategoryStyle. rewrite Hget.
  simpl. eexists. split; [reflexivity |]. simpl.
  split; [| split; [| repeat split]].
  - apply own_spread_with_same.
  - intros k Hk. apply own_spread_with_other; assumption.
  - apply spread_with_NoDup. exact Hnd.
Qed.

(** X8.  Updating the style of a category that has one merges the given
    fields into it and keeps the others; every other key of the registry
    keeps its style; points, categories and the axes flag are untouched. *)
Theorem updateCategoryStyle_merges_one_category :
  forall (c : jsstr) (u : StyleUpdate) (prev : VisualizationState)
         (s : CategoryStyle),
    NoDup (map fst (st_own (categoryStyles prev))) ->
    styles_get (categoryStyles prev) c = Val s ->
    exists st,
      updateCategoryStyle c u prev = Some st /\
      styles_get (categoryStyles st) c = Val (apply_update s u) /\
      (forall k, k <> c ->
                 own (st_own (categoryStyles st)) k
                 = own (st_own (categoryStyles prev)) k) /\
      points st = points prev /\ categories st = categories prev /\
      showAxes st = showAxes prev /\
      NoDup (map fst (st_own (categoryStyles st))).
Proof.
  intros c u prev s Hnd Hget.
  destruct (updateCategoryStyle_on_style c u prev s Hnd Hget)
    as (st & H & Hc & Hrest).
  exists st. split; [exact H |]. split; [| exact Hrest].
  apply styles_get_own. exact Hc.
Qed.

Lemma updateCategoryStyle_merges_one_category_witness :
  exists st,
    updateCategoryStyle (lit "B") (mkUpdate (Some (lit "#ef4444")) None None)
      (handleDataLoaded [near_point; far_point] initial_state) = Some st /\
    styles_get (categoryStyles st) (lit "B")
    = Val (apply_update (default_style 1)
                        (mkUpdate (Some (lit "#ef4444")) None None)) /\
    (forall k, k <> lit "B" ->
               own (st_own (categoryStyles st)) k
               = own (st_own (categoryStyles
                                (handleDataLoaded [near_point; far_point]
                                                  initial_state))) k) /\
    points st = points (handleDataLoaded [near_point; far_point] initial_state) /\
    categories st
    = categories (handleDataLoaded [near_point; far_point] initial_state) /\
    showAxes st
    = showAxes (handleDataLoaded [near_point; far_point] initial_state) /\
    NoDup (map fst (st_own (categoryStyles st))).
Proof.
  apply (updateCategoryStyle_merges_one_category (lit "B")
           (mkUpdate (Some (lit "#ef4444")) None None)
           (handleDataLoaded [near_point; far_point] initial_state)
           (default_style 1)).
  - vm_compute. repeat (constructor; [simpl; intuition discriminate |]).
    constructor.
  - vm_compute. reflexivity.
Defined.

Lemma apply_update_visible_twice : forall s,
  apply_update
    (apply_update s (mkUpdate None None (Some (negb (visible s)))))
    (mkUpdate None None (Some (negb (negb (visible s)))))
  = s.
Proof.
  intros [c sh v]. unfold apply_update. simpl.
  rewrite negb_involutive. reflexivity.
Qed.

(** X9.  The eye button of a category that has a style of its own flips
    its visibility and nothing else; pressed a second time it restores
    that style, and every key of the registry holds what it held before
    the first press. *)
Theorem eye_button_twice_restores_styles :
  forall (c : jsstr) (st : VisualizationState) (s : CategoryStyle),
    NoDup (map fst (st_own (categoryStyles st))) ->
    own (st_own (categoryStyles st)) c = Some s ->
    exists st1 st2,
      click_eye c st = Some st1 /\
      styles_get (categoryStyles st1) c
      = Val (mkStyle (style_color s) (shape s) (negb (visible s))) /\
      click_eye c st1 = Some st2 /\
      (forall k, own (st_own (categoryStyles st2)) k
                 = own (st_own (categoryStyles st)) k) /\
      points st2 = points st /\ categories st2 = categories st.
Proof.
  intros c st s Hnd Hown.
  pose proof (styles_get_own _ _ _ Hown) as Hget.
  unfold click_eye. rewrite Hget. simpl row_visible.
  destruct (updateCategoryStyle_on_style c
              (mkUpdate None None (Some (negb (visible s)))) st s Hnd Hget)
    as (st1 & H1 & Hc1 & Hother1 & Hp1 & Hcat1 & _ & Hnd1).
  exists st1. rewrite H1.
  pose proof (styles_get_own _ _ _ Hc1) as Hget1.
  rewrite Hget1. simpl row_visible.
  destruct (updateCategoryStyle_on_style c
              (mkUpdate None None (Some (negb (negb (visible s))))) st1 _
              Hnd1 Hget1)
    as (st2 & H2 & Hc2 & Hother2 & Hp2 & Hcat2 & _ & _).
  exists st2. split; [reflexivity |]. split; [reflexivity |].
  split; [exact H2 |]. split; [| split; congruence].
  intro k. destruct (jsstr_eq_dec k c) as [E|E].
  - subst k. rewrite Hown, Hc2, apply_update_visible_twice. reflexivity.
  - rewrite (Hother2 k E). apply Hother1. exact E.
Qed.

Lemma eye_button_twice_restores_styles_witness :
  exists st1 st2,
    click_eye (lit "A")
      (handleDataLoaded [near_point; far_point] initial_state) = Some st1 /\
    styles_get (categoryStyles st1) (lit "A")
    = Val (mkStyle (style_color (default_style 0)) (shape (default_style 0))
                   (negb (visible (default_style 0)))) /\
    click_eye (lit "A") st1 = Some st2 /\
    (forall k, own (st_own (categoryStyles st2)) k
               = own (st_own (categoryStyles
                                (handleDataLoaded [near_point; far_point]
                                                  initial_state))) k) /\
    points st2 = points (handleDataLoaded [near_point; far_point] initial_state) /\
    categories st2
    = categories (handleDataLoaded [near_point; far_point] initial_state).
Proof.
  apply (eye_button_twice_restores_styles (lit "A")
           (handleDataLoaded [near_point; far_point] initial_state)
           (default_style 0)).
  - vm_compute. repeat (constructor; [simpl; intuition discriminate |]).
    constructor.
  - vm_compute. reflexivity.
Defined.

(* ================================================================== *)
(** * The states [App] can reach *)
(* ================================================================== *)



Lemma default_styles_get : forall cats k cat,
  NoDup cats -> nth_error cats k = Some cat ->
  styles_get (default_styles cats 0 styles_empty) cat = Val (default_style k).
Proof.
  intros cats k cat Hnd Hk.
  pose proof (default_styles_lookup cats 0 styles_empty Hnd) as Hmap.
  pose proof (map_nth_error (styles_get (default_styles cats 0 styles_empty))
                _ _ Hk) as Hget.
  rewrite Hmap in Hget.
  assert (Hlt : k < List.length cats)
    by (apply nth_error_Some; rewrite Hk; discriminate).
  rewrite (map_nth_error _ _ (seq 0 (List.length cats)) (d := k)) in Hget.
  - inversion Hget. reflexivity.
  - rewrite nth_error_nth' with (d := 0) by (rewrite length_seq; exact Hlt).
    rewrite seq_nth by exact Hlt. reflexivity.
Qed.












(* ================================================================== *)
(** * The screenshot trigger *)
(* ================================================================== *)

Lemma trigger_run_callbacks : forall fired w,
  screenshotTrigger (fold_left (fun u t => run_callback (action t) u) fired w)
  = if existsb is_reset fired then false else screenshotTrigger w.
Proof.
  induction fired as [|t rest IH]; intro w; simpl.
  - reflexivity.
  - rewrite IH. unfold is_reset at 2.
    destruct (action t); simpl; [reflexivity |].
    destruct (existsb is_reset rest); reflexivity.
Qed.

Lemma trigger_elapse : forall d v,
  screenshotTrigger (elapse d v)
  = if existsb is_reset (filter (is_due (clock v + d)) (timers v))
    then false else screenshotTrigger v.
Proof.
  intros d v. unfold elapse. rewrite trigger_run_callbacks. reflexivity.
Qed.

Lemma no_reset_due : forall now ts,
  (forall t, In t ts -> is_reset t = false) ->
  existsb is_reset (filter (is_due now) ts) = false.
Proof.
  intros now ts H. induction ts as [|t rest IH]; simpl; [reflexivity |].
  destruct (is_due now t); simpl.
  - rewrite (H t (or_introl eq_refl)). simpl. apply IH.
    intros t' Ht'. apply H. right. exact Ht'.
  - apply IH. intros t' Ht'. apply H. right. exact Ht'.
Qed.

Lemma reset_due_app : forall now ts t,
  existsb is_reset (filter (is_due now) (ts ++ [t]))
  = (existsb is_reset (filter (is_due now) ts)
     || (is_due now t && is_reset t))%bool.
Proof.
  intros now ts t. rewrite filter_app, existsb_app. simpl.
  destruct (is_due now t); simpl; [rewrite orb_false_r |]; reflexivity.
Qed.

(** X12.  A capture request made while no reset timer is pending keeps the
    trigger on for the next 100 ms and off from then on.  Made from the
    idle state it runs [handleCapture] once, in the effect of the render
    that turns the trigger on; the render that turns it off captures
    nothing. *)
Theorem capture_trigger_is_on_for_100ms :
  forall (v : Visualizer) (d : nat) (now : N) (gl : WebGLRenderer),
    (forall t, In t (timers v) -> is_reset t = false) ->
    screenshotTrigger v = false ->
    screenshotTrigger (elapse d (fst (takeScreenshot v))) = (d <? 100) /\
    render_effect v (fst (takeScreenshot v)) now gl
    = capture_effect true now gl /\
    render_effect (fst (takeScreenshot v))
                  (elapse 100 (fst (takeScreenshot v))) now gl
    = Ok [].
Proof.
  intros v d now gl Hnone Hidle.
  assert (Hlife : forall d', screenshotTrigger (elapse d' (fst (takeScreenshot v)))
                             = (d' <? 100)).
  { intro d'. rewrite trigger_elapse. unfold takeScreenshot. simpl.
    rewrite reset_due_app, (no_reset_due _ _ Hnone). simpl.
    unfold is_due. simpl. rewrite andb_true_r.
    destruct (d' <? 100) eqn:E.
    - apply Nat.ltb_lt in E.
      assert (H : (clock v + 100 <=? clock v + d') = false)
        by (apply Nat.leb_gt; lia).
      rewrite H. reflexivity.
    - apply Nat.ltb_ge in E.
      assert (H : (clock v + 100 <=? clock v + d') = true)
        by (apply Nat.leb_le; lia).
      rewrite H. reflexivity. }
  split; [apply Hlife | split].
  - unfold render_effect. rewrite Hidle. reflexivity.
  - unfold render_effect. rewrite (Hlife 100). reflexivity.
Qed.

Lemma capture_trigger_is_on_for_100ms_witness :
  screenshotTrigger (elapse 40 (fst (takeScreenshot initial_visualizer)))
  = (40 <? 100) /\
  render_effect initial_visualizer (fst (takeScreenshot initial_visualizer))
                0 working_renderer
  = capture_effect true 0 working_renderer /\
  render_effect (fst (takeScreenshot initial_visualizer))
                (elapse 100 (fst (takeScreenshot initial_visualizer)))
                0 working_renderer
  = Ok [].
Proof.
  apply (capture_trigger_is_on_for_100ms initial_visualizer 40 0
           working_renderer).
  - intros t [].
  - reflexivity.
Defined.

(** X13.  A second capture request made while the trigger is still on
    captures nothing (the trigger does not change, so the effect does not
    run) and does not prolong the trigger: it goes off 100 ms after the
    first request. *)
Theorem second_capture_request_is_lost :
  forall (v : Visualizer) (d1 d2 : nat) (now : N) (gl : WebGLRenderer),
    (forall t, In t (timers v) -> is_reset t = false) ->
    d1 < 100 ->
    let v2 := elapse d1 (fst (takeScreenshot v)) in
    let v3 := fst (takeScreenshot v2) in
    render_effect v2 v3 now gl = Ok [] /\
    screenshotTrigger (elapse d2 v3) = (d1 + d2 <? 100).
Proof.
  intros v d1 d2 now gl Hnone Hd1. cbv zeta.
  assert (Hon : screenshotTrigger (elapse d1 (fst (takeScreenshot v))) = true).
  { rewrite trigger_elapse. unfold takeScreenshot. simpl.
    rewrite reset_due_app, (no_reset_due _ _ Hnone). simpl.
    unfold is_due. simpl.
    assert (H : (clock v + 100 <=? clock v + d1) = false)
      by (apply Nat.leb_gt; lia).
    rewrite H. reflexivity. }
  split.
  - unfold render_effect. rewrite Hon. reflexivity.
  - rewrite trigger_elapse.
    destruct (timers_elapse d1 (fst (takeScreenshot v))) as (Ht & _ & _).
    unfold takeScreenshot at 1. cbn [fst].
    set (v2 := elapse d1 (fst (takeScreenshot v))) in *.
    assert (Hclock : clock v2 = clock v + d1).
    { unfold v2. rewrite clock_elapse. reflexivity. }
    assert (Htimers : timers v2
                      = filter (fun t => negb (is_due (clock v + d1) t))
                               (timers v)
                        ++ [mkTimer (next_timer_id v) (clock v + 100)
                                    reset_trigger]).
    { rewrite Ht. unfold takeScreenshot. simpl. rewrite filter_app. simpl.
      unfold is_due at 2. simpl.
      assert (H : (clock v + 100 <=? clock v + d1) = false)
        by (apply Nat.leb_gt; lia).
      rewrite H. reflexivity. }
    simpl. rewrite Htimers, Hclock.
    rewrite !reset_due_app.
    rewrite no_reset_due.
    + unfold is_due. simpl. rewrite !andb_true_r.
      destruct (d1 + d2 <? 100) eqn:E.
      * apply Nat.ltb_lt in E.
        assert (H1 : (clock v + 100 <=? clock v + d1 + d2) = false)
          by (apply Nat.leb_gt; lia).
        assert (H2 : (clock v + d1 + 100 <=? clock v + d1 + d2) = false)
          by (apply Nat.leb_gt; lia).
        rewrite H1, H2. reflexivity.
      * apply Nat.ltb_ge in E.
        assert (H1 : (clock v + 100 <=? clock v + d1 + d2) = true)
          by (apply Nat.leb_le; lia).
        rewrite H1. reflexivity.
    + intros t Hin. apply filter_In in Hin. apply Hnone. apply Hin.
Qed.

Lemma second_capture_request_is_lost_witness :
  render_effect
    (elapse 60 (fst (takeScreenshot initial_visualizer)))
    (fst (takeScreenshot (elapse 60 (fst (takeScreenshot initial_visualizer)))))
    0 working_renderer
  = Ok [] /\
  screenshotTrigger
    (elapse 40
       (fst (takeScreenshot
               (elapse 60 (fst (takeScreenshot initial_visualizer))))))
  = (60 + 40 <? 100).
Proof.
  apply (second_capture_request_is_lost initial_visualizer 60 40 0
           working_renderer).
  - intros t [].
  - lia.
Defined.

(* ================================================================== *)
(** * The fields of the ingested points *)
(* ================================================================== *)

Lemma split_no_sep : forall sep s piece,
  In piece (split sep s) -> ~ In sep piece.
Proof.
  intros sep s. induction s as [|c rest IH]; intros piece Hin; simpl in Hin.
  - destruct Hin as [H|[]]. subst piece. intros [].
  - destruct (c =? sep)%N eqn:E.
    + destruct Hin as [H|H]; [subst piece; intros [] | apply IH; exact H].
    + apply N.eqb_neq in E.
      destruct (split sep rest) as [|cur more] eqn:Hs.
      * destruct Hin as [H|[]]. subst piece. intros [H|[]]. congruence.
      * destruct Hin as [H|H].
        -- subst piece. intros [H|H]; [congruence |].
           exact (IH cur (or_introl eq_refl) H).
        -- apply IH. right. exact H.
Qed.

Lemma split_chars : forall sep s piece ch,
  In piece (split sep s) -> In ch piece -> In ch s.
Proof.
  intros sep s. induction s as [|c rest IH]; intros piece ch Hin Hch;
    simpl in Hin.
  - destruct Hin as [H|[]]. subst piece. contradiction.
  - destruct (c =? sep)%N.
    + destruct Hin as [H|H]; [subst piece; contradiction |].
      right. exact (IH piece ch H Hch).
    + destruct (split sep rest) as [|cur more] eqn:Hs.
      * destruct Hin as [H|[]]. subst piece.
        destruct Hch as [H|[]]. left. exact H.
      * destruct Hin as [H|H].
        -- subst piece. destruct Hch as [H|H]; [left; exact H |].
           right. exact (IH cur ch (or_introl eq_refl) H).
        -- right. exact (IH piece ch (or_intror H) Hch).
Qed.

Lemma trimStart_chars : forall s ch, In ch (trimStart s) -> In ch s.
Proof.
  induction s as [|c rest IH]; intros ch H; simpl in H.
  - contradiction.
  - destruct (is_white_space c); [right; apply IH; exact H | exact H].
Qed.

Lemma trim_chars : forall s ch, In ch (trim s) -> In ch s.
Proof.
  intros s ch H. unfold trim, trimEnd in H.
  apply in_rev in H. apply trimStart_chars in H. apply in_rev in H.
  apply trimStart_chars. exact H.
Qed.

Lemma trimStart_starts_clean : forall s, starts_clean (trimStart s) = true.
Proof.
  induction s as [|c rest IH]; simpl.
  - reflexivity.
  - destruct (is_white_space c) eqn:E; [exact IH |].
    simpl. rewrite E. reflexivity.
Qed.

Lemma trimStart_fixed : forall s, starts_clean s = true -> trimStart s = s.
Proof.
  intros [|c rest] H; simpl in *.
  - reflexivity.
  - destruct (is_white_space c); [discriminate | reflexivity].
Qed.

Lemma trimStart_snoc : forall l c,
  is_white_space c = false -> trimStart (l ++ [c]) = trimStart l ++ [c].
Proof.
  intros l c Hc. induction l as [|a rest IH]; simpl.
  - rewrite Hc. reflexivity.
  - destruct (is_white_space a); [exact IH | reflexivity].
Qed.

Lemma trimEnd_starts_clean : forall s,
  starts_clean s = true -> starts_clean (trimEnd s) = true.
Proof.
  intros [|c rest] H.
  - reflexivity.
  - simpl in H. apply negb_true_iff in H.
    unfold trimEnd. simpl rev. rewrite (trimStart_snoc _ _ H).
    rewrite rev_app_distr. simpl. rewrite H. reflexivity.
Qed.

Lemma trimEnd_idem : forall s, trimEnd (trimEnd s) = trimEnd s.
Proof.
  intro s. unfold trimEnd. rewrite rev_involutive.
  rewrite (trimStart_fixed _ (trimStart_starts_clean (rev s))). reflexivity.
Qed.

(** [trim] strips all there is to strip. *)
Lemma trim_idem : forall s, trim (trim s) = trim s.
Proof.
  intro s. unfold trim.
  rewrite (trimStart_fixed (trimEnd (trimStart s))).
  - apply trimEnd_idem.
  - apply trimEnd_starts_clean. apply trimStart_starts_clean.
Qed.

Lemma column_clean : forall line col,
  ~ In newline line -> In col (columns line) -> clean_field col.
Proof.
  intros line col Hnl Hin. unfold columns in Hin.
  apply in_map_iff in Hin. destruct Hin as (piece & Hcol & Hpiece).
  subst col. split; [apply trim_idem | split].
  - intro H. apply trim_chars in H. exact (split_no_sep _ _ _ Hpiece H).
  - intro H. apply trim_chars in H. apply Hnl.
    exact (split_chars _ _ _ _ Hpiece H).
Qed.

Lemma or_default_clean : forall line i d,
  ~ In newline line -> clean_field d ->
  clean_field (or_default (nth_error (columns line) i) d).
Proof.
  intros line i d Hnl Hd. unfold or_default.
  destruct (nth_error (columns line) i) as [col|] eqn:E; [| exact Hd].
  destruct (truthy_str col); [| exact Hd].
  apply (column_clean line); [exact Hnl |].
  exact (nth_error_In _ _ E).
Qed.

Lemma or_default_nonempty : forall c d, d <> [] -> or_default c d <> [].
Proof.
  intros [[|ch s]|] d Hd; simpl; try exact Hd. discriminate.
Qed.

Lemma unlabeled_clean : clean_field (lit "Unlabeled").
Proof.
  split; [reflexivity | split]; vm_compute; intuition discriminate.
Qed.

Lemma empty_clean : clean_field [].
Proof. split; [reflexivity | split]; intros []. Qed.

Section CleanFields.

Variable parseFloat : jsstr -> float.

Lemma process_lines_clean : forall lines st,
  (forall line, In line lines -> ~ In newline line) ->
  Forall (fun p => label p <> [] /\ clean_field (label p) /\
                   clean_field (metadata p))
         (process_lines parseFloat st lines).
Proof.
  induction lines as [|line rest IH]; intros st Hnl; cbn [process_lines].
  - constructor.
  - assert (Hline : ~ In newline line) by (apply Hnl; left; reflexivity).
    assert (Hp : let p := snd (process_line parseFloat st line) in
                 label p <> [] /\ clean_field (label p) /\
                 clean_field (metadata p)).
    { unfold process_line. cbv zeta. cbn [snd label metadata].
      split; [| split].
      - apply or_default_nonempty. discriminate.
      - apply (or_default_clean line 3); [exact Hline | exact unlabeled_clean].
      - apply (or_default_clean line 4); [exact Hline | exact empty_clean]. }
    destruct (process_line parseFloat st line) as [st' p].
    constructor; [exact Hp |].
    apply IH. intros l Hl. apply Hnl. right. exact Hl.
Qed.

(** X14.  Whatever the text, every ingested point has a non-empty label,
    and its label and metadata are trimmed and contain neither a comma nor
    a line feed (what follows a fifth comma on a line is dropped). *)
Theorem ingested_fields_are_clean : forall text : jsstr,
  Forall (fun p => label p <> [] /\ clean_field (label p) /\
                   clean_field (metadata p))
         (processCSV parseFloat text).
Proof.
  intro text. unfold processCSV, csv_lines. apply process_lines_clean.
  intros line Hin. apply filter_In in Hin. destruct Hin as [Hin _].
  exact (split_no_sep _ _ _ Hin).
Qed.

End CleanFields.

(* ================================================================== *)
(** * What a frame reports *)
(* ================================================================== *)

Lemma pick_report : forall ray pts style r,
  pick ray pts style = Some r ->
  visible style = true /\
  match r with
  | Some p => In p pts /\ ray p <> None
  | None => forall q, In q pts -> ray q = None
  end.
Proof.
  intros ray pts style r H. unfold pick in H.
  destruct (visible style); simpl in H; [| discriminate].
  split; [reflexivity |].
  unfold intersectObject in H.
  destruct (sort_hits (hits_from ray 0 pts)) as [|h rest] eqn:E.
  - inversion H; subst r. intros q Hq.
    destruct (ray q) as [d|] eqn:Hr; [exfalso | reflexivity].
    destruct (hits_from_complete ray pts 0 q d Hq Hr) as (h & Hh & _).
    apply sort_hits_In in Hh. rewrite E in Hh. contradiction.
  - assert (Hin : In h (hits_from ray 0 pts)).
    { apply sort_hits_In. rewrite E. left. reflexivity. }
    destruct (hits_from_sound ray pts 0 h Hin) as (p & Hn & _ & Hp).
    rewrite Nat.sub_0_r in Hn. rewrite Hn in H. inversion H; subst r.
    split; [exact (nth_error_In _ _ Hn) | rewrite Hp; discriminate].
Qed.

Lemma frame_reports_length : forall ray batches,
  List.length (frame_reports ray batches)
  = List.length (filter (fun b => visible (snd b)) batches).
Proof.
  intros ray batches. induction batches as [|b rest IH].
  - reflexivity.
  - rewrite frame_reports_cons, length_app, IH. simpl.
    unfold pick. destruct (visible (snd b)); simpl.
    + destruct (intersectObject ray (fst b)); reflexivity.
    + reflexivity.
Qed.

(** X15.  In a frame every visible batch makes exactly one [onHover] call
    and an invisible batch none; a call carries a point only if that point
    is in a visible batch and the ray hits it, and [null] only if the ray
    hits no point of some visible batch. *)
Theorem frame_reports_visible_hits_only :
  forall (ray : Ray) (batches : list (list DataPoint * CategoryStyle)),
    List.length (frame_reports ray batches)
    = List.length (filter (fun b => visible (snd b)) batches) /\
    forall r, In r (frame_reports ray batches) ->
      exists b, In b batches /\ visible (snd b) = true /\
        match r with
        | Some p => In p (fst b) /\ ray p <> None
        | None => forall q, In q (fst b) -> ray q = None
        end.
Proof.
  intros ray batches. split; [apply frame_reports_length |].
  induction batches as [|b rest IH]; intros r Hr.
  - contradiction.
  - rewrite frame_reports_cons in Hr. apply in_app_or in Hr.
    destruct Hr as [Hr|Hr].
    + destruct (pick ray (fst b) (snd b)) as [r'|] eqn:Hp; [| contradiction].
      destruct Hr as [Hr|[]]. subst r'.
      destruct (pick_report ray (fst b) (snd b) r Hp) as [Hv Hrest].
      exists b. split; [left; reflexivity | split; assumption].
    + destruct (IH r Hr) as (b' & Hb' & Hrest).
      exists b'. split; [right; exact Hb' | exact Hrest].
Qed.

(* ================================================================== *)
(** * The render batches right after ingestion *)
(* ================================================================== *)

Lemma with_label_nonempty : forall l pts,
  In l (map label pts) -> with_label l pts <> [].
Proof.
  intros l pts Hin. apply in_map_iff in Hin. destruct Hin as (p & Hl & Hp).
  intro E. assert (H : In p (with_label l pts)).
  { apply filter_In. split; [exact Hp | apply str_eqb_eq; exact Hl]. }
  rewrite E in H. contradiction.
Qed.

(** X16.  For points of which no label names a member of
    [Object.prototype], [DataVisualizer] builds one batch per category of
    the state [handleDataLoaded] made from them; each batch holds the
    points of one category, is not empty and receives that category's
    default style; every point is in a batch. *)
Theorem one_styled_batch_per_category :
  forall (pts : list DataPoint) (prev : VisualizationState),
    (forall p, In p pts -> ~ In (label p) ObjectPrototype) ->
    exists groups,
      pointsByCategory pts = Ok groups /\
      let st := handleDataLoaded pts prev in
      let props := category_props groups (categoryStyles st) in
      List.length props = List.length (categories st) /\
      (forall b, In b props ->
         exists k cat,
           nth_error (categories st) k = Some cat /\
           fst b = with_label cat pts /\ fst b <> [] /\
           snd b = Val (default_style k)) /\
      (forall p, In p pts -> exists b, In b props /\ In p (fst b)).
Proof.
  intros pts prev Hproto.
  destruct (group_points_spec pts empty Hproto) as (g & Hg & Hkeys & Hown).
  exists g. split; [exact Hg |]. cbv zeta.
  assert (Hk : map fst g = first_occurrences (map label pts)).
  { rewrite Hkeys. simpl. apply array_from_set_first_occurrences. }
  assert (Hnd : NoDup (map fst g)).
  { rewrite Hk. apply first_occurrences_NoDup. }
  assert (Hcats : categories (handleDataLoaded pts prev)
                  = first_occurrences (map label pts)).
  { simpl. apply array_from_set_first_occurrences. }
  assert (Hstyle : forall k cat,
            nth_error (first_occurrences (map label pts)) k = Some cat ->
            styles_get (categoryStyles (handleDataLoaded pts prev)) cat
            = Val (default_style k)).
  { intros k cat Hnth. unfold handleDataLoaded. cbn [categoryStyles].
    rewrite array_from_set_first_occurrences.
    apply default_styles_get; [apply first_occurrences_NoDup | exact Hnth]. }
  assert (Hgroup : forall l, In l (map label pts) ->
                             In (l, with_label l pts) (entries g)).
  { intros l Hl. apply (Permutation_in (l := g)).
    - apply Permutation_sym. apply entries_perm.
    - apply (own_In _ g l _ Hnd). rewrite Hown. simpl.
      apply mem_str_In in Hl. rewrite Hl. reflexivity. }
  split; [| split].
  - unfold category_props. rewrite length_map, Hcats, <- Hk, length_map.
    apply Permutation_length. apply entries_perm.
  - intros b Hb. unfold category_props in Hb.
    apply in_map_iff in Hb. destruct Hb as ([cat arr] & Hb & He).
    subst b. cbn [fst snd].
    apply (Permutation_in (l' := g)) in He; [| apply entries_perm].
    assert (Hcat : In cat (first_occurrences (map label pts))).
    { rewrite <- Hk. apply (in_map fst) in He. exact He. }
    destruct (In_nth_error _ _ Hcat) as [k Hnth].
    exists k, cat. rewrite Hcats.
    pose proof (proj1 (first_occurrences_In _ _) Hcat) as Hlab.
    assert (Harr : arr = with_label cat pts).
    { apply (own_In _ g cat arr Hnd) in He. rewrite Hown in He.
      simpl in He. pose proof (proj2 (mem_str_In _ _) Hlab) as Hmem.
      rewrite Hmem in He. congruence. }
    split; [exact Hnth | split; [exact Harr | split]].
    + rewrite Harr. apply with_label_nonempty. exact Hlab.
    + apply Hstyle. exact Hnth.
  - intros p Hp.
    assert (Hl : In (label p) (map label pts)) by (apply in_map; exact Hp).
    exists (with_label (label p) pts,
            styles_get (categoryStyles (handleDataLoaded pts prev)) (label p)).
    split.
    + unfold category_props.
      apply (in_map (fun e => (snd e, styles_get _ (fst e)))
                    (entries g) (label p, with_label (label p) pts)).
      apply Hgroup. exact Hl.
    + simpl. apply filter_In. split; [exact Hp | apply str_eqb_refl].
Qed.

Lemma one_styled_batch_per_category_witness :
  exists groups,
    pointsByCategory [near_point; far_point] = Ok groups /\
    let st := handleDataLoaded [near_point; far_point] initial_state in
    let props := category_props groups (categoryStyles st) in
    List.length props = List.length (categories st) /\
    (forall b, In b props ->
       exists k cat,
         nth_error (categories st) k = Some cat /\
         fst b = with_label cat [near_point; far_point] /\ fst b <> [] /\
         snd b = Val (default_style k)) /\
    (forall p, In p [near_point; far_point] ->
               exists b, In b props /\ In p (fst b)).
Proof.
  apply (one_styled_batch_per_category [near_point; far_point] initial_state).
  intros p [H|[H|[]]]; subst p; vm_compute; intuition discriminate.
Defined.

(* ================================================================== *)
(** * The download link, the highlight and the viewport *)
(* ================================================================== *)

(** X17.  For the PNG data URL of the canvas, the download link carries
    the same data with the media type [image/octet-stream]: only the
    first [image/png] is replaced, the encoded image is not touched. *)
Theorem download_link_changes_media_type_only :
  forall (now : N) (payload : jsstr),
    handleCapture now (mkGL (Ok (lit "data:image/png" ++ payload)))
    = Ok (mkDownload now (lit "data:image/octet-stream" ++ payload)).
Proof. intros now payload. reflexivity. Qed.

(** X18.  Right after ingestion the highlight of a selected ingested point
    is tinted in the default colour of its category, never in the white
    fallback, whatever the label. *)
Theorem highlight_has_category_color :
  forall (pts : list DataPoint) (prev : VisualizationState)
         (p : DataPoint) (v : Visualizer),
    In p pts -> selectedPoint v = Some p ->
    exists k,
      nth_error (categories (handleDataLoaded pts prev)) k
      = Some (label p) /\
      SelectionHighlight (categoryStyles (handleDataLoaded pts prev)) v
      = Some (p, palette_at k) /\
      palette_at k <> lit "#fff".
Proof.
  intros pts prev p v Hp Hsel.
  assert (Hin : In (label p) (first_occurrences (map label pts))).
  { apply first_occurrences_In. apply in_map. exact Hp. }
  destruct (In_nth_error _ _ Hin) as [k Hk].
  exists k. simpl categories. rewrite array_from_set_first_occurrences.
  split; [exact Hk | split].
  - unfold SelectionHighlight, highlight_color. rewrite Hsel.
    simpl categoryStyles. rewrite array_from_set_first_occurrences.
    rewrite (default_styles_get _ k (label p)
               (first_occurrences_NoDup _) Hk).
    simpl. rewrite palette_at_truthy. reflexivity.
  - unfold palette_at. simpl List.length.
    pose proof (Nat.mod_upper_bound k 10) as H.
    destruct (k mod 10) as [|m]; [vm_compute; discriminate |].
    do 9 (destruct m as [|m]; [vm_compute; discriminate |]). lia.
Qed.

Lemma highlight_has_category_color_witness :
  exists k,
    nth_error
      (categories (handleDataLoaded [near_point; far_point] initial_state)) k
    = Some (label far_point) /\
    SelectionHighlight
      (categoryStyles (handleDataLoaded [near_point; far_point] initial_state))
      (onClick_points [far_point] (Some 0) initial_visualizer)
    = Some (far_point, palette_at k) /\
    palette_at k <> lit "#fff".
Proof.
  apply (highlight_has_category_color [near_point; far_point] initial_state
           far_point (onClick_points [far_point] (Some 0) initial_visualizer)).
  - right. left. reflexivity.
  - reflexivity.
Defined.

Lemma filter_nonempty_existsb : forall (A : Type) (f : A -> bool) l,
  (0 <? List.length (filter f l))%nat = existsb f l.
Proof.
  intros A f l. induction l as [|a rest IH]; simpl.
  - reflexivity.
  - destruct (f a); simpl; [reflexivity | exact IH].
Qed.

Lemma process_lines_length : forall pf lines st,
  List.length (process_lines pf st lines) = List.length lines.
Proof.
  intros pf lines. induction lines as [|line rest IH]; intro st;
    cbn [process_lines].
  - reflexivity.
  - destruct (process_line pf st line) as [st' p]. simpl. rewrite IH.
    reflexivity.
Qed.

(** X19.  After a file was read, [App] shows the visualizer exactly when
    the text has a non-blank line; a text of blank lines only leaves the
    upload card in place, with no categories and no error.  After
    [clearData] the upload card is shown again. *)
Theorem visualizer_shown_iff_some_line_is_not_blank :
  forall (parseFloat : jsstr -> float) (text : jsstr)
         (prev : VisualizationState),
    let st := handleDataLoaded (processCSV parseFloat text) prev in
    shows_visualizer st = existsb nonblank (split newline text) /\
    (shows_visualizer st = false -> categories st = [] /\ error st = None) /\
    shows_visualizer (clearData st) = false.
Proof.
  intros parseFloat text prev. cbv zeta.
  assert (Hshow : shows_visualizer
                    (handleDataLoaded (processCSV parseFloat text) prev)
                  = existsb nonblank (split newline text)).
  { unfold shows_visualizer. simpl points. unfold processCSV, csv_lines.
    rewrite process_lines_length. apply filter_nonempty_existsb. }
  split; [exact Hshow | split; [| reflexivity]].
  intro H. unfold shows_visualizer in H. simpl points in H.
  destruct (processCSV parseFloat text) as [|p rest]; [| discriminate].
  split; reflexivity.
Qed.

(* ================================================================== *)
(** * The colour picker of the sidebar *)
(* ================================================================== *)

Lemma default_color_not_offered : forall k, ~ In (palette_at k) PALETTE.
Proof.
  intro k. unfold palette_at. simpl List.length.
  pose proof (Nat.mod_upper_bound k 10) as H.
  destruct (k mod 10) as [|m]; [vm_compute; intuition discriminate |].
  do 9 (destruct m as [|m]; [vm_compute; intuition discriminate |]). lia.
Qed.

(** X20.  A swatch of the sidebar gives the category that colour and
    keeps its shape and visibility.  The sidebar offers none of the ten
    default colours, so a default colour that was replaced cannot be
    picked again. *)
Theorem sidebar_color_replaces_default_for_good :
  forall (cat c : jsstr) (st : VisualizationState) (s : CategoryStyle),
    NoDup (map fst (st_own (categoryStyles st))) ->
    styles_get (categoryStyles st) cat = Val s ->
    In c PALETTE ->
    exists st',
      click_color cat c st = Some st' /\
      styles_get (categoryStyles st') cat
      = Val (mkStyle c (shape s) (visible s)) /\
      forall k, c <> palette_at k.
Proof.
  intros cat c st s Hnd Hget Hc. unfold click_color.
  destruct (updateCategoryStyle_on_style cat (mkUpdate (Some c) None None)
              st s Hnd Hget) as (st' & H & Hown & _).
  exists st'. split; [exact H | split].
  - apply styles_get_own. exact Hown.
  - intros k E. subst c. exact (default_color_not_offered k Hc).
Qed.

Lemma sidebar_color_replaces_default_for_good_witness :
  exists st',
    click_color (lit "A") (lit "#ef4444")
      (handleDataLoaded [near_point; far_point] initial_state) = Some st' /\
    styles_get (categoryStyles st') (lit "A")
    = Val (mkStyle (lit "#ef4444") (shape (default_style 0))
                   (visible (default_style 0))) /\
    forall k, lit "#ef4444" <> palette_at k.
Proof.
  apply (sidebar_color_replaces_default_for_good (lit "A") (lit "#ef4444")
           (handleDataLoaded [near_point; far_point] initial_state)
           (default_style 0)).
  - vm_compute. repeat (constructor; [simpl; intuition discriminate |]).
    constructor.
  - vm_compute. reflexivity.
  - vm_compute. left. reflexivity.
Defined.

(* ================================================================== *)
(** * Hover over a category that is hidden *)
(* ================================================================== *)

Lemma frame_reports_all_hidden : forall ray batches,
  (forall b, In b batches -> visible (snd b) = false) ->
  frame_reports ray batches = [].
Proof.
  intros ray batches H. induction batches as [|b rest IH].
  - reflexivity.
  - rewrite frame_reports_cons.
    rewrite (pick_invisible ray (fst b) (snd b) (H b (or_introl eq_refl))).
    simpl. apply IH. intros b' Hb'. apply H. right. exact Hb'.
Qed.

Lemma no_clear_due : forall now ts,
  (forall t, In t ts -> is_clear t = false) ->
  existsb is_clear (filter (is_due now) ts) = false.
Proof.
  intros now ts H. induction ts as [|t rest IH]; simpl; [reflexivity |].
  destruct (is_due now t); simpl.
  - rewrite (H t (or_introl eq_refl)). simpl. apply IH.
    intros t' Ht'. apply H. right. exact Ht'.
  - apply IH. intros t' Ht'. apply H. right. exact Ht'.
Qed.

(** X21.  While all categories are hidden no frame makes a hover report,
    so a hover point set before stays for ever, as long as no clear timer
    was pending when the last category was hidden: hiding the category of
    the hovered point does not clear the hover. *)
Theorem hover_outlives_hidden_categories :
  forall (gap n : nat) (ray : Ray)
         (batches : list (list DataPoint * CategoryStyle)) (v : Visualizer),
    (forall b, In b batches -> visible (snd b) = false) ->
    (forall t, In t (timers v) -> is_clear t = false) ->
    hoveredPoint (frames gap n ray batches v) = hoveredPoint v.
Proof.
  intros gap n ray batches v Hhidden. revert v.
  induction n as [|n IH]; intros v Hnone; cbn [frames].
  - reflexivity.
  - unfold run_frame. rewrite (frame_reports_all_hidden ray batches Hhidden).
    cbn [fold_left]. rewrite IH.
    + rewrite hoveredPoint_elapse, (no_clear_due _ _ Hnone). reflexivity.
    + intros t Hin. destruct (timers_elapse gap v) as (Ht & _ & _).
      rewrite Ht in Hin. apply filter_In in Hin. apply Hnone. apply Hin.
Qed.

Lemma hover_outlives_hidden_categories_witness :
  hoveredPoint
    (frames 16 10 through_both
       [([far_point], hide (mkStyle (palette_at 1) circle true))]
       (handleHover (Some far_point) initial_visualizer))
  = hoveredPoint (handleHover (Some far_point) initial_visualizer).
Proof.
  apply (hover_outlives_hidden_categories 16 10 through_both
           [([far_point], hide (mkStyle (palette_at 1) circle true))]
           (handleHover (Some far_point) initial_visualizer)).
  - intros b [H|[]]. subst b. reflexivity.
  - intros t [].
Defined.
